(** * rig_ripper: a shallow embedding of [rig_ripper.py]

    The script runs inside a 3D host application.  Everything it reads comes
    from the host's scene graph and everything it changes goes through host
    commands.  The scene is modelled as a record of the queries the script
    makes; the host's mutating commands are an interface ([host]) whose
    meaning is left open, so that every statement about what the script
    changes holds whatever those commands do.

    Python control flow is kept: [for] loops are folds over the iterated
    list, the [while] loops are a step function iterated under a fuel bound,
    exceptions are an outcome of their own, and the module's global names
    are looked up in the table of names the module binds. *)

From Stdlib Require Import List String Arith Bool Lia QArith.
Import ListNotations.
Open Scope string_scope.
Open Scope nat_scope.
Open Scope list_scope.

(** ** The host scene *)

(** A scene object reference: an opaque handle. *)
Definition node := nat.

Record scene := mkScene {
  all_nodes : list node;                        (* what [pymel.ls()] lists, in order *)
  objectType : node -> string;                  (* [pymel.objectType(i)] *)
  parent_of : node -> option node;              (* the parent link of the DAG *)
  listHistory : node -> list node;              (* [pymel.listHistory(i)] *)
  skin_influences : node -> list node;          (* [pymel.skinCluster(sc, query=True, inf=True)] *)
  skinPercent : node -> node -> node -> Q;      (* [pymel.skinPercent(sc, v, transform=j, query=True)] *)
  shape_node : node -> node;                    (* [item.node()] *)
  selected : list node                          (* the host's current selection *)
}.

(** An element of the list [joint_hierarchy].  The script appends two kinds
    of Python value to it: a joint itself (line 67) and the list that
    [listRelatives] returned (line 72). *)
Inductive entry :=
| Joint (j : node)
| Parents (ps : list node).

(** The host commands that change the scene.  Their effect is the host's
    business; the embedding only records where the script calls them. *)
Record host := mkHost {
  mel_command : string -> scene -> scene;              (* [mel.eval(cmd)] once [mel] is resolved *)
  delete_selection : scene -> scene;                   (* [pymel.delete()] *)
  delete_nodes : list (option node) -> scene -> scene; (* [pymel.delete(list)] *)
  select_nodes : list node -> scene -> scene;          (* [pymel.select(list)] *)
  deselect_nodes : list entry -> scene -> scene        (* [pymel.select(list, deselect=True)] *)
}.

(** ** Outcomes, exceptions and the run monad *)

Inductive exn :=
| NameError (name : string)
| IndexError
| UnboundLocalError (name : string).

Inductive outcome (A : Type) :=
| Returned (a : A)
| Raised (e : exn)
| OutOfFuel.
Arguments Returned {A} a.
Arguments Raised {A} e.
Arguments OutOfFuel {A}.

(** What an observer of a run sees besides the scene: the warnings shown to
    the user and, as ghost events, which functions of the script were
    entered and which mutating host commands were issued. *)
Inductive event :=
| Warning (msg : string)
| Enter (fn : string)
| Command (name : string).

Record world := mkWorld {
  w_scene : scene;
  w_events : list event
}.

Definition M (A : Type) : Type := world -> outcome A * world.

Definition ret {A} (a : A) : M A := fun w => (Returned a, w).

Definition raise {A} (e : exn) : M A := fun w => (Raised e, w).

Definition bind {A B} (m : M A) (k : A -> M B) : M B :=
  fun w =>
    match m w with
    | (Returned a, w') => k a w'
    | (Raised e, w') => (Raised e, w')
    | (OutOfFuel, w') => (OutOfFuel, w')
    end.

Notation "x <- m ;; k" := (bind m (fun x => k))
  (at level 61, m at next level, right associativity).
Notation "m ;;; k" := (bind m (fun _ => k))
  (at level 61, right associativity).

Definition emit (e : event) : M unit :=
  fun w => (Returned tt, mkWorld (w_scene w) (w_events w ++ [e])).

Definition ask {A} (q : scene -> A) : M A :=
  fun w => (Returned (q (w_scene w)), w).

Definition mutate (f : scene -> scene) : M unit :=
  fun w => (Returned tt, mkWorld (f (w_scene w)) (w_events w)).

Definition lift {A} (f : scene -> outcome A) : M A :=
  fun w => (f (w_scene w), w).

(** A mutating host command: logged, then applied to the scene. *)
Definition command (name : string) (f : scene -> scene) : M unit :=
  emit (Command name) ;;; mutate f.

(** ** Module-level names

    The module imports [pymel.all] as [pymel] and [maya.cmds] as [cmds],
    binds [selection] and defines five functions.  A global name is found
    when the module binds it; any other name is a [NameError] at the point
    where it is evaluated. *)
Definition imports : list string := ["pymel"; "cmds"].

Definition module_globals : list string :=
  imports ++ ["selection"; "validate_selection"; "get_joint_hierarchy";
              "isolate_geometry"; "isolate_joint_hierarchy"; "rip_rig"].

Definition mem_string (x : string) (l : list string) : bool :=
  existsb (String.eqb x) l.

Definition load_global (name : string) : M unit :=
  if mem_string name module_globals then ret tt else raise (NameError name).

(** [mel.eval(cmd)]: the name [mel] is evaluated first, then the command runs. *)
Definition mel_eval (h : host) (cmd : string) : M unit :=
  load_global "mel" ;;; command cmd (mel_command h cmd).

(** ** Host listings *)

Definition mem_node (x : node) (l : list node) : bool :=
  existsb (Nat.eqb x) l.

(** [pymel.ls(type=ty)] *)
Definition ls_type (s : scene) (ty : string) : list node :=
  filter (fun n => String.eqb (objectType s n) ty) (all_nodes s).

(** [pymel.ls(objs, type=ty)] *)
Definition ls_among (s : scene) (objs : list node) (ty : string) : list node :=
  filter (fun n => String.eqb (objectType s n) ty) objs.

(** [pymel.listRelatives(x, parent=True)] on one node: a list holding the
    parent, or the empty list. *)
Definition listRelatives_parent (s : scene) (x : node) : list node :=
  match parent_of s x with
  | Some p => [p]
  | None => []
  end.

(** The same query on a list of nodes, as the hierarchy walk makes it. *)
Definition listRelatives_parents (s : scene) (xs : list node) : list node :=
  flat_map (listRelatives_parent s) xs.

(** ** validate_selection *)

Fixpoint validate_loop (selection geometry : list node) : M (bool * list node) :=
  match selection with
  | [] => ret (true, geometry)
  | i :: rest =>
      ty <- ask (fun s => objectType s i) ;;
      if negb (String.eqb ty "mesh") then
        emit (Warning "please select only faces") ;;;
        ret (false, geometry)
      else
        validate_loop rest (geometry ++ [i])
  end.

Definition validate_selection (selection : list node) : M (bool * list node) :=
  emit (Enter "validate_selection") ;;;
  validate_loop selection [].

(** ** get_joint_hierarchy *)

(** Sequencing of computations that only read the scene. *)
Definition and_then {A B} (o : outcome A) (k : A -> outcome B) : outcome B :=
  match o with
  | Returned a => k a
  | Raised e => Raised e
  | OutOfFuel => OutOfFuel
  end.

(** Lines 41-42: the first loop keeps the listing of the last item only,
    and nothing reads it afterwards. *)
Definition skin_clusters_after_loop (s : scene) (geometry : list node)
  : option (list node) :=
  fold_left (fun _ i => Some (ls_among s (listHistory s i) "skinCluster"))
            geometry None.

(** [weight > 0] *)
Definition positive_weight (weight : Q) : bool := negb (Qle_bool weight 0).

(** Lines 55-60: the body of [for j in all_joints]. *)
Definition scan_joint (s : scene) (sc vert : node) (cluster_influences : list node)
           (influential_joints : list node) (j : node) : list node :=
  if mem_node j cluster_influences then
    let weight := skinPercent s sc vert j in
    if positive_weight weight && negb (mem_node j influential_joints)
    then influential_joints ++ [j]
    else influential_joints
  else influential_joints.

(** Lines 50-60: [for vert in geometry].  The subscript [[0]] on an empty
    listing is an [IndexError]. *)
Fixpoint find_influential (s : scene) (all_joints geometry influential_joints : list node)
  : outcome (list node) :=
  match geometry with
  | [] => Returned influential_joints
  | vert :: rest =>
      match ls_among s (listHistory s vert) "skinCluster" with
      | [] => Raised IndexError
      | sc :: _ =>
          let cluster_influences := skin_influences s sc in
          find_influential s all_joints rest
            (fold_left (scan_joint s sc vert cluster_influences)
                       all_joints influential_joints)
      end
  end.

Fixpoint nodes_eqb (xs ys : list node) : bool :=
  match xs, ys with
  | [], [] => true
  | x :: xs', y :: ys' => Nat.eqb x y && nodes_eqb xs' ys'
  | _, _ => false
  end.

(** Python's [==] on the two kinds of element: a node equals a node with
    the same handle, a list equals a list with equal elements, and a node
    never equals a list. *)
Definition entry_eqb (a b : entry) : bool :=
  match a, b with
  | Joint x, Joint y => Nat.eqb x y
  | Parents xs, Parents ys => nodes_eqb xs ys
  | _, _ => false
  end.

Definition mem_entry (x : entry) (l : list entry) : bool :=
  existsb (entry_eqb x) l.

(** The joints an element stands for, and the joint set of a hierarchy. *)
Definition entry_nodes (e : entry) : list node :=
  match e with
  | Joint j => [j]
  | Parents ps => ps
  end.

Definition joints_of (h : list entry) : list node := flat_map entry_nodes h.

(** Lines 70-74: the state of the [while] loop and one turn of it.  [None]
    is the loop condition being false. *)
Record walk := mkWalk {
  joint_parent : list node;
  joint_hierarchy : list entry
}.

Definition walk_step (s : scene) (w : walk) : option walk :=
  match joint_parent w with
  | [] => None
  | _ :: _ =>
      Some (mkWalk
              (listRelatives_parents s (joint_parent w))
              (if mem_entry (Parents (joint_parent w)) (joint_hierarchy w)
               then joint_hierarchy w
               else joint_hierarchy w ++ [Parents (joint_parent w)]))
  end.

Fixpoint walk_loop (fuel : nat) (s : scene) (w : walk) : outcome (list entry) :=
  match walk_step s w with
  | None => Returned (joint_hierarchy w)
  | Some w' =>
      match fuel with
      | O => OutOfFuel
      | S fuel' => walk_loop fuel' s w'
      end
  end.

(** Lines 66-74: [for j in influential_joints]. *)
Fixpoint build_hierarchy (fuel : nat) (s : scene) (influential_joints : list node)
         (hierarchy : list entry) : outcome (list entry) :=
  match influential_joints with
  | [] => Returned hierarchy
  | j :: rest =>
      and_then
        (walk_loop fuel s (mkWalk (listRelatives_parent s j) (hierarchy ++ [Joint j])))
        (build_hierarchy fuel s rest)
  end.

(** Lines 82-87: [while True] up to the node without parents. *)
Fixpoint find_root (fuel : nat) (s : scene) (current : node) : outcome node :=
  match listRelatives_parent s current with
  | [] => Returned current
  | p :: _ =>
      match fuel with
      | O => OutOfFuel
      | S fuel' => find_root fuel' s p
      end
  end.

(** Lines 80-87: [for jnt in joint_hierarchy], which reads the variable [j]
    left by the earlier loops and never [jnt]. *)
Fixpoint root_loop (fuel : nat) (s : scene) (j : option node) (hierarchy : list entry)
         (root : option node) : outcome (option node) :=
  match hierarchy with
  | [] => Returned root
  | _ :: rest =>
      match j with
      | None => Raised (UnboundLocalError "j")
      | Some j' =>
          and_then (find_root fuel s j') (fun r => root_loop fuel s j rest (Some r))
      end
  end.

(** The value of the local variable [j] when line 76 is reached: the last
    joint the loop of line 66 visited, otherwise the last one the loop of
    line 54 visited, otherwise unbound. *)
Definition last_opt {A} (l : list A) : option A :=
  match rev l with
  | [] => None
  | x :: _ => Some x
  end.

Definition leftover_j (all_joints geometry influential_joints : list node) : option node :=
  match last_opt influential_joints with
  | Some j => Some j
  | None =>
      match geometry with
      | [] => None
      | _ :: _ => last_opt all_joints
      end
  end.

(** What the function returns: the list, or the pair of the list and the root. *)
Inductive hierarchy_result :=
| Hierarchy (h : list entry)
| HierarchyAndRoot (h : list entry) (root : node).

Definition get_joint_hierarchy_on (fuel : nat) (s : scene) (geometry : list node)
           (root_request : bool) : outcome hierarchy_result :=
  let skin_clusters := skin_clusters_after_loop s geometry in
  let all_joints := ls_type s "joint" in
  and_then (find_influential s all_joints geometry []) (fun influential_joints =>
  and_then (build_hierarchy fuel s influential_joints []) (fun hierarchy =>
  if negb root_request then Returned (Hierarchy hierarchy)
  else
    and_then (root_loop fuel s (leftover_j all_joints geometry influential_joints)
                        hierarchy None)
      (fun root =>
         match root with
         | None => Raised (UnboundLocalError "root")
         | Some r => Returned (HierarchyAndRoot hierarchy r)
         end))).

Definition get_joint_hierarchy (fuel : nat) (geometry : list node) (root_request : bool)
  : M hierarchy_result :=
  emit (Enter "get_joint_hierarchy") ;;;
  lift (fun s => get_joint_hierarchy_on fuel s geometry root_request).

(** ** isolate_geometry *)

Definition opt_node_eqb (a b : option node) : bool :=
  match a, b with
  | Some x, Some y => Nat.eqb x y
  | None, None => true
  | _, _ => false
  end.

Definition mem_opt_node (x : option node) (l : list (option node)) : bool :=
  existsb (opt_node_eqb x) l.

(** [if t not in acc: acc.append(t)] *)
Definition append_new (acc : list (option node)) (t : option node)
  : list (option node) :=
  if mem_opt_node t acc then acc else acc ++ [t].

Definition isolate_geometry (h : host) (geometry : list node) : M unit :=
  emit (Enter "isolate_geometry") ;;;
  mel_eval h "invertSelection;" ;;;
  command "delete" (delete_selection h) ;;;
  all_mesh <- ask (fun s => ls_type s "mesh") ;;
  all_mesh_transforms <-
    ask (fun s => fold_left (fun acc mesh => append_new acc (parent_of s mesh))
                            all_mesh []) ;;
  selection_shells <-
    ask (fun s => fold_left (fun acc mesh =>
                               let shape := shape_node s mesh in
                               append_new acc (parent_of s shape))
                            geometry []) ;;
  let shells_for_delete :=
    filter (fun mesh => negb (mem_opt_node mesh selection_shells)) all_mesh_transforms in
  command "delete" (delete_nodes h shells_for_delete).

(** ** isolate_joint_hierarchy *)

Definition isolate_joint_hierarchy (h : host) (hierarchy : list entry) : M unit :=
  emit (Enter "isolate_joint_hierarchy") ;;;
  all_joints <- ask (fun s => ls_type s "joint") ;;
  command "select" (select_nodes h all_joints) ;;;
  command "select" (deselect_nodes h hierarchy) ;;;
  mel_eval h "doDelete".

(** ** rip_rig and the module body *)

(** The Python value [get_joint_hierarchy] hands back, read as the list
    argument of [isolate_joint_hierarchy]. *)
Definition returned_list (r : hierarchy_result) : list entry :=
  match r with
  | Hierarchy h => h
  | HierarchyAndRoot h root => h ++ [Joint root]
  end.

Definition rip_rig (h : host) (fuel : nat) (selection : list node) : M unit :=
  emit (Enter "rip_rig") ;;;
  vg <- validate_selection selection ;;
  let valid := fst vg in
  let geometry := snd vg in
  if valid && Nat.eqb (List.length selection) (List.length geometry) then
    r <- get_joint_hierarchy fuel geometry false ;;
    isolate_geometry h geometry ;;;
    isolate_joint_hierarchy h (returned_list r)
  else ret tt.

(** Lines 9 and 153: the selection is read once, then ripped. *)
Definition script (h : host) (fuel : nat) : M unit :=
  selection <- ask selected ;;
  rip_rig h fuel selection.

(** ** Vocabulary of the statements *)

(** [a] is a proper ancestor of [n] along the parent links. *)
Inductive ancestor (s : scene) : node -> node -> Prop :=
| ancestor_parent : forall n p, parent_of s n = Some p -> ancestor s p n
| ancestor_step : forall n p a,
    parent_of s n = Some p -> ancestor s a p -> ancestor s a n.

(** The skin deformer the script uses for an item: the first skin cluster
    of the item's own history. *)
Definition own_skin_cluster (s : scene) (item : node) : option node :=
  hd_error (ls_among s (listHistory s item) "skinCluster").

(** [j] is influential for [item]: a joint of the scene, bound to the item's
    own skin deformer, with a strictly positive queried weight. *)
Definition influential_for (s : scene) (item j : node) : Prop :=
  exists sc,
    own_skin_cluster s item = Some sc /\
    In j (ls_type s "joint") /\
    In j (skin_influences s sc) /\
    (0 < skinPercent s sc item j)%Q.

Definition influential (s : scene) (geometry : list node) (j : node) : Prop :=
  exists item, In item geometry /\ influential_for s item j.

(** The ancestor-closure of the influential joints. *)
Definition in_closure (s : scene) (geometry : list node) (x : node) : Prop :=
  exists j, influential s geometry j /\ (x = j \/ ancestor s x j).

Definition is_mesh (s : scene) (i : node) : Prop := objectType s i = "mesh".

Definition is_meshb (s : scene) (i : node) : bool :=
  String.eqb (objectType s i) "mesh".

(** A world with more events logged. *)
Definition logged (w : world) (es : list event) : world :=
  mkWorld (w_scene w) (w_events w ++ es).

(** The parent links are those of a DAG: [depth] decreases towards the root. *)
Definition dag (s : scene) (depth : node -> nat) : Prop :=
  forall n p, parent_of s n = Some p -> depth p < depth n.

(** The fuel covers the depth of every joint of the scene. *)
Definition covers (s : scene) (depth : node -> nat) (fuel : nat) : Prop :=
  forall j, In j (ls_type s "joint") -> depth j <= fuel.

(** The functions of the script that delete. *)
Definition deletion_stage (e : event) : Prop :=
  e = Enter "isolate_geometry" \/ e = Enter "isolate_joint_hierarchy".

Definition is_command (e : event) : Prop := exists name, e = Command name.

(** The items of a selection that come before its first non-mesh item. *)
Fixpoint mesh_prefix (s : scene) (selection : list node) : list node :=
  match selection with
  | [] => []
  | i :: rest =>
      if String.eqb (objectType s i) "mesh" then i :: mesh_prefix s rest else []
  end.

(** The states the [while] loop goes through, the first one included. *)
Fixpoint walk_states (fuel : nat) (s : scene) (w : walk) : list walk :=
  w :: match walk_step s w with
       | None => []
       | Some w' =>
           match fuel with
           | O => []
           | S fuel' => walk_states fuel' s w'
           end
       end.

Definition run {A} (m : M A) (s : scene) : outcome A * world :=
  m (mkWorld s []).

(** ** A sample scene

    Joints: 1 is a root, 2 its child, 3 and 5 children of 2, 4 a child of 3,
    and 6 a joint on its own.  Meshes 10 and 11 are bound to the skin
    clusters 30 and 31, mesh 12 is not bound, 40 is a camera.  Mesh 10 is
    weighted to joint 4 only, mesh 11 to joint 5 only. *)
Definition sample_type (n : node) : string :=
  match n with
  | 1 | 2 | 3 | 4 | 5 | 6 => "joint"
  | 10 | 11 | 12 => "mesh"
  | 30 | 31 => "skinCluster"
  | 40 => "camera"
  | _ => "transform"
  end.

Definition sample_parent (n : node) : option node :=
  match n with
  | 2 => Some 1
  | 3 => Some 2
  | 4 => Some 3
  | 5 => Some 2
  | 10 => Some 20
  | 11 => Some 21
  | 12 => Some 22
  | _ => None
  end.

Definition sample_depth (n : node) : nat :=
  match n with
  | 2 => 1
  | 3 => 2
  | 4 => 3
  | 5 => 2
  | 10 | 11 | 12 => 1
  | _ => 0
  end.

Definition sample_history (n : node) : list node :=
  match n with
  | 10 => [10; 30]
  | 11 => [11; 31]
  | _ => [n]
  end.

Definition sample_influences (sc : node) : list node :=
  match sc with
  | 30 => [1; 2; 3; 4]
  | 31 => [5; 6]
  | _ => []
  end.

Definition sample_weight (sc vert j : node) : Q :=
  match sc, vert, j with
  | 30, 10, 4 => 1
  | 31, 11, 5 => 1 # 2
  | _, _, _ => 0
  end.

Definition sample : scene :=
  mkScene [1; 2; 3; 4; 5; 6; 10; 11; 12; 20; 21; 22; 30; 31; 40]
          sample_type sample_parent sample_history sample_influences
          sample_weight (fun n => n) [10; 11].

(** A host for the examples: deleting removes the named nodes from the
    listing, inverting selects the rest of the listing. *)
Definition drop_nodes (ds : list node) (s : scene) : scene :=
  mkScene (filter (fun n => negb (mem_node n ds)) (all_nodes s))
          (objectType s) (parent_of s) (listHistory s) (skin_influences s)
          (skinPercent s) (shape_node s) [].

Definition set_selected (sel : list node) (s : scene) : scene :=
  mkScene (all_nodes s) (objectType s) (parent_of s) (listHistory s)
          (skin_influences s) (skinPercent s) (shape_node s) sel.

Definition some_nodes (l : list (option node)) : list node :=
  flat_map (fun o => match o with Some n => [n] | None => [] end) l.

Definition sample_host : host :=
  mkHost
    (fun cmd s =>
       if String.eqb cmd "invertSelection;" then
         set_selected (filter (fun n => negb (mem_node n (selected s))) (all_nodes s)) s
       else if String.eqb cmd "doDelete" then drop_nodes (selected s) s
       else s)
    (fun s => drop_nodes (selected s) s)
    (fun l s => drop_nodes (some_nodes l) s)
    set_selected
    (fun l s =>
       set_selected (filter (fun n => negb (mem_node n (joints_of l))) (selected s)) s).

(** ** Further vocabulary

    The joints a hierarchy list holds as themselves, in order. *)
Definition joint_entries (h : list entry) : list node :=
  flat_map (fun e => match e with Joint j => [j] | Parents _ => [] end) h.

(** Lines 102-111, 101 and 113-119, and 121 of [isolate_geometry], as
    functions of the scene they read. *)
Definition all_mesh_transforms (s : scene) : list (option node) :=
  fold_left (fun acc mesh => append_new acc (parent_of s mesh))
            (ls_type s "mesh") [].

Definition selection_shells (s : scene) (geometry : list node)
  : list (option node) :=
  fold_left (fun acc mesh =>
               let shape := shape_node s mesh in
               append_new acc (parent_of s shape))
            geometry [].

Definition shells_for_delete (s : scene) (geometry : list node)
  : list (option node) :=
  filter (fun mesh => negb (mem_opt_node mesh (selection_shells s geometry)))
         (all_mesh_transforms s).

(** Lines 98-122: [isolate_geometry] past its first statement. *)
Definition isolate_geometry_after_mel (h : host) (geometry : list node) : M unit :=
  command "delete" (delete_selection h) ;;;
  all_mesh <- ask (fun s => ls_type s "mesh") ;;
  all_mesh_transforms <-
    ask (fun s => fold_left (fun acc mesh => append_new acc (parent_of s mesh))
                            all_mesh []) ;;
  selection_shells <-
    ask (fun s => fold_left (fun acc mesh =>
                               let shape := shape_node s mesh in
                               append_new acc (parent_of s shape))
                            geometry []) ;;
  let shells_for_delete :=
    filter (fun mesh => negb (mem_opt_node mesh selection_shells)) all_mesh_transforms in
  command "delete" (delete_nodes h shells_for_delete).

(** The test of line 55 and 59 on one joint, for the weights of [vert] on [sc]. *)
Definition weighted (s : scene) (sc vert j : node) : bool :=
  mem_node j (skin_influences s sc) && positive_weight (skinPercent s sc vert j).

(** ** A second sample scene

    The joints of the first one.  Mesh 10 is weighted to joint 3 and to its
    child 4; mesh 13 is bound to the skin cluster 32, with no weight. *)
Definition sample2_type (n : node) : string :=
  match n with
  | 13 => "mesh"
  | 32 => "skinCluster"
  | _ => sample_type n
  end.

Definition sample2_history (n : node) : list node :=
  match n with
  | 10 => [10; 30]
  | 13 => [13; 32]
  | _ => [n]
  end.

Definition sample2_influences (sc : node) : list node :=
  match sc with
  | 30 => [1; 2; 3; 4]
  | 32 => [6]
  | _ => []
  end.

Definition sample2_weight (sc vert j : node) : Q :=
  match sc, vert, j with
  | 30, 10, 3 => 1 # 2
  | 30, 10, 4 => 1 # 2
  | _, _, _ => 0
  end.

Definition sample2 : scene :=
  mkScene [1; 2; 3; 4; 5; 6; 10; 13; 20; 30; 32]
          sample2_type sample_parent sample2_history sample2_influences
          sample2_weight (fun n => n) [10].

(** * Properties *)

(** ** The run monad *)

Lemma is_meshb_iff : forall s i, is_meshb s i = true <-> is_mesh s i.
Proof.
  intros s i. unfold is_meshb, is_mesh. apply String.eqb_eq.
Qed.

Lemma forallb_is_mesh : forall s l,
  forallb (is_meshb s) l = true <-> Forall (is_mesh s) l.
Proof.
  intros s l. rewrite forallb_forall, Forall_forall.
  split; intros H x Hx; apply is_meshb_iff; auto.
Qed.

(** ** validate_selection *)

Lemma validate_loop_run : forall selection geometry w,
  validate_loop selection geometry w =
  if forallb (is_meshb (w_scene w)) selection
  then (Returned (true, geometry ++ selection), w)
  else (Returned (false, geometry ++ mesh_prefix (w_scene w) selection),
        logged w [Warning "please select only faces"]).
Proof.
  induction selection as [|i rest IH]; intros geometry w; simpl.
  - now rewrite app_nil_r.
  - unfold bind, ask. unfold is_meshb at 1.
    destruct (String.eqb (objectType (w_scene w) i) "mesh"); simpl.
    + rewrite IH. rewrite <- !app_assoc. reflexivity.
    + now rewrite app_nil_r.
Qed.

Lemma validate_selection_run : forall selection w,
  validate_selection selection w =
  if forallb (is_meshb (w_scene w)) selection
  then (Returned (true, selection), logged w [Enter "validate_selection"])
  else (Returned (false, mesh_prefix (w_scene w) selection),
        logged w [Enter "validate_selection"; Warning "please select only faces"]).
Proof.
  intros selection w. unfold validate_selection, bind, emit.
  rewrite validate_loop_run. simpl.
  destruct (forallb (is_meshb (w_scene w)) selection); unfold logged; simpl.
  - reflexivity.
  - now rewrite <- app_assoc.
Qed.

Lemma mesh_prefix_split : forall s selection,
  forallb (is_meshb s) selection = false ->
  exists i post,
    selection = mesh_prefix s selection ++ i :: post /\
    Forall (is_mesh s) (mesh_prefix s selection) /\
    ~ is_mesh s i.
Proof.
  induction selection as [|x rest IH]; simpl; intros H.
  - discriminate.
  - unfold is_meshb in H at 1.
    destruct (String.eqb (objectType s x) "mesh") eqn:E; simpl in *.
    + destruct (IH H) as (i & post & Hs & Hall & Hi).
      exists i, post. repeat split; auto.
      * now rewrite <- Hs.
      * constructor; auto. now apply String.eqb_eq.
    + exists x, rest. repeat split; auto.
      unfold is_mesh. intros Hm. apply String.eqb_eq in Hm. congruence.
Qed.

(** ** The unbound name *)

Lemma mel_is_unbound : mem_string "mel" module_globals = false.
Proof. reflexivity. Qed.

Lemma mel_eval_raises : forall h cmd w,
  mel_eval h cmd w = (Raised (NameError "mel"), w).
Proof. reflexivity. Qed.

Lemma isolate_geometry_run : forall h geometry w,
  isolate_geometry h geometry w =
  (Raised (NameError "mel"), logged w [Enter "isolate_geometry"]).
Proof. reflexivity. Qed.

Lemma isolate_joint_hierarchy_run : forall h hierarchy w,
  isolate_joint_hierarchy h hierarchy w =
  (Raised (NameError "mel"),
   mkWorld (deselect_nodes h hierarchy
              (select_nodes h (ls_type (w_scene w) "joint") (w_scene w)))
           (w_events w ++ [Enter "isolate_joint_hierarchy"; Command "select";
                           Command "select"])).
Proof.
  intros h hierarchy w. unfold isolate_joint_hierarchy, bind, emit, ask, command,
    mutate, mel_eval, load_global. simpl.
  now rewrite <- !app_assoc.
Qed.

(** ** rip_rig, case by case *)

Lemma rip_rig_run : forall h fuel selection w,
  rip_rig h fuel selection w =
  if forallb (is_meshb (w_scene w)) selection then
    match get_joint_hierarchy_on fuel (w_scene w) selection false with
    | Returned _ =>
        (Raised (NameError "mel"),
         logged w [Enter "rip_rig"; Enter "validate_selection";
                   Enter "get_joint_hierarchy"; Enter "isolate_geometry"])
    | Raised e =>
        (Raised e,
         logged w [Enter "rip_rig"; Enter "validate_selection";
                   Enter "get_joint_hierarchy"])
    | OutOfFuel =>
        (OutOfFuel,
         logged w [Enter "rip_rig"; Enter "validate_selection";
                   Enter "get_joint_hierarchy"])
    end
  else
    (Returned tt,
     logged w [Enter "rip_rig"; Enter "validate_selection";
               Warning "please select only faces"]).
Proof.
  intros h fuel selection w. unfold rip_rig.
  unfold bind at 1. unfold emit at 1. unfold bind at 1.
  rewrite validate_selection_run. simpl w_scene.
  destruct (forallb (is_meshb (w_scene w)) selection); simpl.
  - rewrite Nat.eqb_refl. unfold bind at 1. unfold get_joint_hierarchy.
    unfold bind at 1. unfold emit at 1. unfold lift. simpl w_scene.
    destruct (get_joint_hierarchy_on fuel (w_scene w) selection false);
      unfold logged; simpl; rewrite <- ?app_assoc; try reflexivity.
    unfold bind. rewrite isolate_geometry_run. unfold logged. simpl.
    now rewrite <- !app_assoc.
  - unfold logged. simpl. now rewrite <- !app_assoc.
Qed.

(** Whatever the selection, a run of [rip_rig] leaves the scene as it found
    it, issues no host command and never enters [isolate_joint_hierarchy]. *)
Lemma rip_rig_effects : forall h fuel selection w,
  exists es,
    snd (rip_rig h fuel selection w) = logged w es /\
    (forall e, In e es -> ~ is_command e) /\
    ~ In (Enter "isolate_joint_hierarchy") es.
Proof.
  intros h fuel selection w. rewrite rip_rig_run.
  destruct (forallb (is_meshb (w_scene w)) selection);
    [destruct (get_joint_hierarchy_on fuel (w_scene w) selection false)|];
    (eexists; split; [reflexivity|]; split;
     [ intros ev He [name ->]; simpl in He;
       repeat (destruct He as [He|He]; [discriminate|]); exact He
     | simpl; intros He;
       repeat (destruct He as [He|He]; [discriminate|]); exact He ]).
Qed.

Lemma rip_rig_scene : forall h fuel selection s,
  w_scene (snd (run (rip_rig h fuel selection) s)) = s.
Proof.
  intros h fuel selection s. unfold run.
  destruct (rip_rig_effects h fuel selection (mkWorld s [])) as (es & -> & _).
  reflexivity.
Qed.

(** ** get_joint_hierarchy: the skin-cluster lookup *)

Lemma find_influential_skinless : forall s all_joints geometry influential_joints,
  Exists (fun m => own_skin_cluster s m = None) geometry ->
  find_influential s all_joints geometry influential_joints = Raised IndexError.
Proof.
  intros s all_joints geometry.
  induction geometry as [|vert rest IH]; intros infl H.
  - inversion H.
  - simpl. unfold own_skin_cluster in H.
    destruct (ls_among s (listHistory s vert) "skinCluster") as [|sc scs] eqn:E.
    + reflexivity.
    + apply IH. inversion H as [x l Hx|x l Hx]; subst.
      * rewrite E in Hx. discriminate.
      * exact Hx.
Qed.

Lemma get_joint_hierarchy_skinless : forall fuel s geometry root_request,
  Exists (fun m => own_skin_cluster s m = None) geometry ->
  get_joint_hierarchy_on fuel s geometry root_request = Raised IndexError.
Proof.
  intros fuel s geometry root_request H. unfold get_joint_hierarchy_on.
  now rewrite find_influential_skinless.
Qed.

(** ** Claims about validation and the pipeline *)

(** C4.  When [validate_selection] answers valid, every element of the
    geometry list it returns is a mesh, the list is as long as the
    selection, and so the guard of [rip_rig] on the two lengths holds. *)
Theorem validate_selection_valid : forall selection w geometry w',
  validate_selection selection w = (Returned (true, geometry), w') ->
  Forall (is_mesh (w_scene w)) geometry /\
  List.length geometry = List.length selection /\
  (true && Nat.eqb (List.length selection) (List.length geometry)) = true.
Proof.
  intros selection w geometry w' H.
  rewrite validate_selection_run in H.
  destruct (forallb (is_meshb (w_scene w)) selection) eqn:E.
  - inversion H; subst. repeat split.
    + now apply forallb_is_mesh.
    + simpl. apply Nat.eqb_refl.
  - discriminate.
Qed.

Lemma validate_selection_valid_witness :
  validate_selection [10; 11] (mkWorld sample []) =
    (Returned (true, [10; 11]), mkWorld sample [Enter "validate_selection"]) /\
  Forall (is_mesh sample) [10; 11] /\
  List.length [10; 11] = List.length [10; 11] /\
  (true && Nat.eqb (List.length [10; 11]) (List.length [10; 11])) = true.
Proof.
  split.
  - reflexivity.
  - apply (validate_selection_valid [10; 11] (mkWorld sample []) [10; 11]
             (mkWorld sample [Enter "validate_selection"])).
    reflexivity.
Defined.

(** C2.  When the selection holds a non-mesh object, validation answers
    invalid at the first such object, with the meshes before it as its
    partial list and the warning shown; [rip_rig] then returns with the
    scene as it was, having entered neither deletion stage and issued no
    host command. *)
Theorem rip_rig_non_mesh : forall h fuel selection s,
  Exists (fun i => ~ is_mesh s i) selection ->
  exists pre i post,
    selection = pre ++ i :: post /\
    Forall (is_mesh s) pre /\
    ~ is_mesh s i /\
    run (validate_selection selection) s =
      (Returned (false, pre),
       mkWorld s [Enter "validate_selection"; Warning "please select only faces"]) /\
    run (rip_rig h fuel selection) s =
      (Returned tt,
       mkWorld s [Enter "rip_rig"; Enter "validate_selection";
                  Warning "please select only faces"]).
Proof.
  intros h fuel selection s H.
  assert (E : forallb (is_meshb s) selection = false).
  { destruct (forallb (is_meshb s) selection) eqn:E; [|reflexivity].
    apply forallb_is_mesh in E. apply Exists_exists in H.
    destruct H as (i & Hi & Hn). rewrite Forall_forall in E.
    elim Hn. now apply E. }
  destruct (mesh_prefix_split s selection E) as (i & post & Hs & Hall & Hi).
  exists (mesh_prefix s selection), i, post.
  repeat split; auto.
  - unfold run. rewrite validate_selection_run. simpl. now rewrite E.
  - unfold run. rewrite rip_rig_run. simpl. now rewrite E.
Qed.

Lemma rip_rig_non_mesh_witness :
  exists pre i post,
    [10; 40; 11] = pre ++ i :: post /\
    Forall (is_mesh sample) pre /\
    ~ is_mesh sample i /\
    run (validate_selection [10; 40; 11]) sample =
      (Returned (false, pre),
       mkWorld sample [Enter "validate_selection"; Warning "please select only faces"]) /\
    run (rip_rig sample_host 5 [10; 40; 11]) sample =
      (Returned tt,
       mkWorld sample [Enter "rip_rig"; Enter "validate_selection";
                       Warning "please select only faces"]).
Proof.
  apply (rip_rig_non_mesh sample_host 5 [10; 40; 11] sample).
  apply Exists_cons_tl. apply Exists_cons_hd.
  unfold is_mesh. simpl. discriminate.
Defined.

(** C8, as the code has it.  [rip_rig] calls [get_joint_hierarchy], the
    first call of the guarded block, exactly when validation answered valid
    and the two lengths agree.  It goes on to the deletion stage
    [isolate_geometry] exactly when, in addition, [get_joint_hierarchy]
    returns.  A deletion stage is entered only under the guard, and when
    the guard fails [rip_rig] returns with the scene untouched, having
    entered none of [get_joint_hierarchy], [isolate_geometry],
    [isolate_joint_hierarchy]. *)
Theorem rip_rig_guard : forall h fuel selection s valid geometry w1,
  run (validate_selection selection) s = (Returned (valid, geometry), w1) ->
  let final := run (rip_rig h fuel selection) s in
  let guard := valid = true /\ List.length selection = List.length geometry in
  (In (Enter "get_joint_hierarchy") (w_events (snd final)) <-> guard) /\
  (In (Enter "isolate_geometry") (w_events (snd final)) <->
     guard /\ exists r, get_joint_hierarchy_on fuel s geometry false = Returned r) /\
  (forall e, deletion_stage e -> In e (w_events (snd final)) -> guard) /\
  (~ guard ->
   fst final = Returned tt /\
   w_scene (snd final) = s /\
   forall fn, In (Enter fn) (w_events (snd final)) ->
              fn = "rip_rig" \/ fn = "validate_selection").
Proof.
  intros h fuel selection s valid geometry w1 H final guard.
  subst final guard. unfold run in *.
  rewrite validate_selection_run in H. rewrite rip_rig_run. simpl w_scene in *.
  destruct (forallb (is_meshb s) selection) eqn:E.
  - inversion H; subst valid geometry.
    assert (G : true = true /\ List.length selection = List.length selection)
      by (split; reflexivity).
    split; [|split; [|split]].
    + split; [intros _; exact G|intros _].
      destruct (get_joint_hierarchy_on fuel s selection false); simpl; auto.
    + destruct (get_joint_hierarchy_on fuel s selection false) as [r|e|] eqn:Er;
        simpl; split.
      * intros _. split; [exact G|]. now exists r.
      * intros _. auto 10.
      * intros Hin. repeat (destruct Hin as [Hin|Hin]; [discriminate|]). elim Hin.
      * intros (_ & r & Hr). discriminate.
      * intros Hin. repeat (destruct Hin as [Hin|Hin]; [discriminate|]). elim Hin.
      * intros (_ & r & Hr). discriminate.
    + intros; exact G.
    + intros Hn. elim Hn. exact G.
  - inversion H; subst valid geometry. simpl.
    split; [|split; [|split]].
    + split.
      * intros Hin. repeat (destruct Hin as [Hin|Hin]; [discriminate|]). elim Hin.
      * intros [Hv _]. discriminate.
    + split.
      * intros Hin. repeat (destruct Hin as [Hin|Hin]; [discriminate|]). elim Hin.
      * intros [[Hv _] _]. discriminate.
    + intros ev [-> | ->] Hin;
        repeat (destruct Hin as [Hin|Hin]; [discriminate|]); elim Hin.
    + intros _. repeat split.
      intros fn Hin.
      destruct Hin as [Hin|[Hin|[Hin|[]]]]; inversion Hin; auto.
Qed.

Lemma rip_rig_guard_witness :
  let final := run (rip_rig sample_host 5 [10; 11]) sample in
  let guard := true = true /\ List.length [10; 11] = List.length [10; 11] in
  (In (Enter "get_joint_hierarchy") (w_events (snd final)) <-> guard) /\
  (In (Enter "isolate_geometry") (w_events (snd final)) <->
     guard /\ exists r, get_joint_hierarchy_on 5 sample [10; 11] false = Returned r) /\
  (forall e, deletion_stage e -> In e (w_events (snd final)) -> guard) /\
  (~ guard ->
   fst final = Returned tt /\
   w_scene (snd final) = sample /\
   forall fn, In (Enter fn) (w_events (snd final)) ->
              fn = "rip_rig" \/ fn = "validate_selection").
Proof.
  apply (rip_rig_guard sample_host 5 [10; 11] sample true [10; 11]
           (mkWorld sample [Enter "validate_selection"])).
  reflexivity.
Defined.

(** C8, as the claim words it, fails.  With meshes 10 and 12 selected on
    the sample scene validation answers valid and the lengths agree, yet no
    deletion stage is entered: mesh 12 has no skin cluster and
    [get_joint_hierarchy] raises before [isolate_geometry] is called. *)
Lemma guard_without_deletion_stage :
  let final := run (rip_rig sample_host 5 [10; 12]) sample in
  fst (run (validate_selection [10; 12]) sample) = Returned (true, [10; 12]) /\
  List.length [10; 12] = List.length [10; 12] /\
  fst final = Raised IndexError /\
  (forall e, deletion_stage e -> ~ In e (w_events (snd final))) /\
  ~ ((exists e, deletion_stage e /\ In e (w_events (snd final))) <->
     (true = true /\ List.length [10; 12] = List.length [10; 12])).
Proof.
  assert (N : forall e, deletion_stage e ->
              ~ In e (w_events (snd (run (rip_rig sample_host 5 [10; 12]) sample)))).
  { intros e [-> | ->] Hin; simpl in Hin;
      repeat (destruct Hin as [Hin|Hin]; [discriminate|]); exact Hin. }
  repeat split; try reflexivity; try exact N.
  intros [_ H]. destruct H as (e & He & Hin); [split; reflexivity|].
  exact (N e He Hin).
Qed.

(** C9.  On a selection of meshes one of which has no skin cluster in its
    history, [get_joint_hierarchy] raises the [IndexError] of the empty
    skin-cluster lookup, whatever [root_request] is; the error leaves
    [rip_rig] uncaught with the scene as it was, before either deletion
    stage is entered and before any host command. *)
Theorem skinless_mesh_raises : forall h fuel selection s,
  Forall (is_mesh s) selection ->
  Exists (fun m => own_skin_cluster s m = None) selection ->
  (forall root_request,
     get_joint_hierarchy_on fuel s selection root_request = Raised IndexError) /\
  run (rip_rig h fuel selection) s =
    (Raised IndexError,
     mkWorld s [Enter "rip_rig"; Enter "validate_selection";
                Enter "get_joint_hierarchy"]).
Proof.
  intros h fuel selection s Hmesh Hskin. split.
  - intros root_request. now apply get_joint_hierarchy_skinless.
  - unfold run. rewrite rip_rig_run. simpl w_scene.
    apply forallb_is_mesh in Hmesh. rewrite Hmesh.
    now rewrite get_joint_hierarchy_skinless.
Qed.

Lemma skinless_mesh_raises_witness :
  (forall root_request,
     get_joint_hierarchy_on 5 sample [10; 12] root_request = Raised IndexError) /\
  run (rip_rig sample_host 5 [10; 12]) sample =
    (Raised IndexError,
     mkWorld sample [Enter "rip_rig"; Enter "validate_selection";
                     Enter "get_joint_hierarchy"]).
Proof.
  apply (skinless_mesh_raises sample_host 5 [10; 12] sample).
  - repeat constructor.
  - apply Exists_cons_tl. apply Exists_cons_hd. reflexivity.
Defined.

(** C3.  The module imports [pymel] and [cmds] only, so [mel] is not among
    its names.  [isolate_geometry] therefore raises [NameError] at its first
    statement, before the inverted-selection deletion or any other host
    command; [isolate_joint_hierarchy] would raise the same error at its
    [doDelete], after its two [select] commands.  On a selection of meshes
    [rip_rig] never returns: when [get_joint_hierarchy] returns, the run ends
    with that [NameError] inside [isolate_geometry]; in every case the scene
    is as it was, no host command was issued and [isolate_joint_hierarchy]
    was not entered, so no joint is deleted. *)
Theorem mel_unbound_aborts : forall h fuel selection s,
  Forall (is_mesh s) selection ->
  imports = ["pymel"; "cmds"] /\
  mem_string "mel" module_globals = false /\
  (forall geometry w,
     isolate_geometry h geometry w =
       (Raised (NameError "mel"), logged w [Enter "isolate_geometry"])) /\
  (forall hierarchy w,
     fst (isolate_joint_hierarchy h hierarchy w) = Raised (NameError "mel") /\
     ~ In (Command "doDelete")
          (w_events (snd (isolate_joint_hierarchy h hierarchy
                            (mkWorld (w_scene w) []))))) /\
  let final := run (rip_rig h fuel selection) s in
  fst final <> Returned tt /\
  (forall r, get_joint_hierarchy_on fuel s selection false = Returned r ->
     final = (Raised (NameError "mel"),
              mkWorld s [Enter "rip_rig"; Enter "validate_selection";
                         Enter "get_joint_hierarchy"; Enter "isolate_geometry"])) /\
  w_scene (snd final) = s /\
  ~ In (Enter "isolate_joint_hierarchy") (w_events (snd final)) /\
  (forall e, In e (w_events (snd final)) -> ~ is_command e).
Proof.
  intros h fuel selection s Hmesh.
  split; [reflexivity|]. split; [reflexivity|].
  split; [intros; apply isolate_geometry_run|].
  split.
  { intros hierarchy w. rewrite !isolate_joint_hierarchy_run. simpl. split; auto.
    intros Hin. repeat (destruct Hin as [Hin|Hin]; [discriminate|]). exact Hin. }
  intros final. subst final. unfold run. rewrite rip_rig_run. simpl w_scene.
  apply forallb_is_mesh in Hmesh. rewrite Hmesh.
  destruct (get_joint_hierarchy_on fuel s selection false) as [r0|e0|]; simpl;
    (split; [discriminate|]; split; [intros r Hr; now inversion Hr|];
     split; [reflexivity|]; split;
     [ intros Hin; repeat (destruct Hin as [Hin|Hin]; [discriminate|]); exact Hin
     | intros ev Hin [name ->];
       repeat (destruct Hin as [Hin|Hin]; [discriminate|]); exact Hin ]).
Qed.

Lemma mel_unbound_aborts_witness :
  Forall (is_mesh sample) [10; 11] /\
  run (rip_rig sample_host 5 [10; 11]) sample =
    (Raised (NameError "mel"),
     mkWorld sample [Enter "rip_rig"; Enter "validate_selection";
                     Enter "get_joint_hierarchy"; Enter "isolate_geometry"]).
Proof.
  assert (Hm : Forall (is_mesh sample) [10; 11]) by (repeat constructor).
  split; [exact Hm|].
  destruct (mel_unbound_aborts sample_host 5 [10; 11] sample Hm)
    as (_ & _ & _ & _ & _ & Hrun & _).
  apply (Hrun (Hierarchy [Joint 4; Parents [3]; Parents [2]; Parents [1]; Joint 5])).
  reflexivity.
Defined.

(** ** Membership tests *)

Lemma mem_node_In : forall x l, mem_node x l = true <-> In x l.
Proof.
  intros x l. unfold mem_node. rewrite existsb_exists. split.
  - intros (y & Hy & E). apply Nat.eqb_eq in E. now subst.
  - intros H. exists x. split; [exact H|apply Nat.eqb_refl].
Qed.

Lemma nodes_eqb_eq : forall xs ys, nodes_eqb xs ys = true <-> xs = ys.
Proof.
  induction xs as [|x xs IH]; destruct ys as [|y ys]; simpl;
    try (split; [discriminate|discriminate]); try tauto.
  rewrite andb_true_iff, Nat.eqb_eq, IH. split.
  - intros [-> ->]. reflexivity.
  - intros E. inversion E. auto.
Qed.

Lemma mem_entry_Parents : forall ps h,
  mem_entry (Parents ps) h = true <-> In (Parents ps) h.
Proof.
  intros ps h. unfold mem_entry. rewrite existsb_exists. split.
  - intros (e & He & E). destruct e as [j|qs]; simpl in E; [discriminate|].
    apply nodes_eqb_eq in E. now subst.
  - intros H. exists (Parents ps). split; [exact H|].
    simpl. now apply nodes_eqb_eq.
Qed.

Lemma positive_weight_iff : forall q, positive_weight q = true <-> (0 < q)%Q.
Proof.
  intros q. unfold positive_weight. rewrite negb_true_iff. split.
  - intros H. apply Qnot_le_lt. intros Hle.
    apply Qle_bool_iff in Hle. congruence.
  - intros H. destruct (Qle_bool q 0) eqn:E; [|reflexivity].
    apply Qle_bool_iff in E. exfalso. revert E. now apply Qlt_not_le.
Qed.

Lemma joints_of_app : forall h t, joints_of (h ++ t) = joints_of h ++ joints_of t.
Proof.
  intros h t. unfold joints_of. apply flat_map_app.
Qed.

Lemma In_joints_of : forall x h,
  In x (joints_of h) <-> exists e, In e h /\ In x (entry_nodes e).
Proof.
  intros x h. unfold joints_of. apply in_flat_map.
Qed.

(** ** The influence scan *)

Section Influence.

Variable s : scene.

Lemma scan_joint_In : forall sc vert ci infl x j,
  In j (scan_joint s sc vert ci infl x) <->
  In j infl \/ (j = x /\ In x ci /\ (0 < skinPercent s sc vert x)%Q).
Proof.
  intros sc vert ci infl x j. unfold scan_joint.
  destruct (mem_node x ci) eqn:Eci.
  - apply mem_node_In in Eci.
    destruct (positive_weight (skinPercent s sc vert x)) eqn:Ew; simpl.
    + apply positive_weight_iff in Ew.
      destruct (mem_node x infl) eqn:Ei; simpl.
      * apply mem_node_In in Ei. split; [auto|].
        intros [H|(-> & _)]; auto.
      * rewrite in_app_iff. simpl. split.
        -- intros [H|[H|[]]]; auto.
        -- intros [H|(-> & _)]; auto.
    + split; [auto|]. intros [H|(_ & _ & H)]; [exact H|].
      apply positive_weight_iff in H. congruence.
  - split; [auto|]. intros [H|(_ & H & _)]; [exact H|].
    apply mem_node_In in H. congruence.
Qed.

Lemma scan_all_In : forall sc vert ci all_joints infl j,
  In j (fold_left (scan_joint s sc vert ci) all_joints infl) <->
  In j infl \/ (In j all_joints /\ In j ci /\ (0 < skinPercent s sc vert j)%Q).
Proof.
  intros sc vert ci all_joints.
  induction all_joints as [|x rest IH]; intros infl j; simpl.
  - tauto.
  - rewrite IH, scan_joint_In. split.
    + intros [[H|(-> & H1 & H2)]|(H0 & H1 & H2)]; auto.
    + intros [H|([->|H0] & H1 & H2)]; auto.
Qed.

(** What the influence loop returns, when it returns. *)
Lemma find_influential_sound : forall all_joints geometry infl0 infl,
  find_influential s all_joints geometry infl0 = Returned infl ->
  forall j,
    In j infl <->
    In j infl0 \/
    exists item sc,
      In item geometry /\ own_skin_cluster s item = Some sc /\
      In j all_joints /\ In j (skin_influences s sc) /\
      (0 < skinPercent s sc item j)%Q.
Proof.
  intros all_joints geometry.
  induction geometry as [|vert rest IH]; intros infl0 infl H j; simpl in H.
  - inversion H; subst. split; [auto|].
    intros [H0|(item & sc & [] & _)]. exact H0.
  - destruct (ls_among s (listHistory s vert) "skinCluster") as [|sc scs] eqn:E;
      [discriminate|].
    rewrite (IH _ _ H j), scan_all_In. split.
    + intros [[H0|(H1 & H2 & H3)]|(item & sc' & Hi & Hrest)].
      * auto.
      * right. exists vert, sc. unfold own_skin_cluster. rewrite E. simpl. auto.
      * right. exists item, sc'. simpl. tauto.
    + intros [H0|(item & sc' & [<-|Hi] & Hsc & Hrest)].
      * auto.
      * unfold own_skin_cluster in Hsc. rewrite E in Hsc. simpl in Hsc.
        inversion Hsc; subst. left. right. tauto.
      * right. exists item, sc'. tauto.
Qed.

(** The influence loop returns when every item has a skin cluster. *)
Lemma find_influential_total : forall all_joints geometry infl0,
  (forall m, In m geometry -> own_skin_cluster s m <> None) ->
  exists infl, find_influential s all_joints geometry infl0 = Returned infl.
Proof.
  intros all_joints geometry.
  induction geometry as [|vert rest IH]; intros infl0 H; simpl.
  - eauto.
  - assert (Hv := H vert (or_introl eq_refl)). unfold own_skin_cluster in Hv.
    destruct (ls_among s (listHistory s vert) "skinCluster") as [|sc scs];
      [now elim Hv|].
    apply IH. intros m Hm. apply H. now right.
Qed.

End Influence.

(** ** The walk up the parent links *)

Section Walk.

Variable s : scene.

Lemma ancestor_inv : forall a n,
  ancestor s a n <->
  exists p, parent_of s n = Some p /\ (a = p \/ ancestor s a p).
Proof.
  intros a n. split.
  - intros H. inversion H; subst; eauto.
  - intros (p & Hp & [->|H]).
    + now apply ancestor_parent.
    + now apply ancestor_step with p.
Qed.

Lemma listRelatives_parents_single : forall a,
  listRelatives_parents s [a] = listRelatives_parent s a.
Proof.
  intros a. unfold listRelatives_parents. simpl. apply app_nil_r.
Qed.

(** One turn of the loop on a one-element parent list. *)
Lemma walk_step_single : forall a h,
  walk_step s (mkWalk [a] h) =
  Some (mkWalk (listRelatives_parent s a)
               (if mem_entry (Parents [a]) h then h else h ++ [Parents [a]])).
Proof.
  intros a h. unfold walk_step. simpl joint_parent. simpl joint_hierarchy.
  now rewrite listRelatives_parents_single.
Qed.

Lemma appended_joints : forall a h x,
  In x (joints_of (if mem_entry (Parents [a]) h then h else h ++ [Parents [a]])) <->
  In x (joints_of h) \/ x = a.
Proof.
  intros a h x. destruct (mem_entry (Parents [a]) h) eqn:E.
  - apply mem_entry_Parents in E. split; [auto|].
    intros [H| ->]; [exact H|].
    apply In_joints_of. exists (Parents [a]). simpl. auto.
  - rewrite joints_of_app, in_app_iff. simpl. intuition.
Qed.

Lemma appended_extends : forall a h,
  exists t, (if mem_entry (Parents [a]) h then h else h ++ [Parents [a]]) = h ++ t.
Proof.
  intros a h. destruct (mem_entry (Parents [a]) h).
  - exists []. now rewrite app_nil_r.
  - now exists [Parents [a]].
Qed.

(** What the loop started above [j] returns, when it returns: the list
    it was given, followed by entries that add exactly the ancestors of
    [j] to its joints. *)
Lemma walk_loop_sound : forall fuel j h h',
  walk_loop fuel s (mkWalk (listRelatives_parent s j) h) = Returned h' ->
  (exists t, h' = h ++ t) /\
  forall x, In x (joints_of h') <-> In x (joints_of h) \/ ancestor s x j.
Proof.
  induction fuel as [|fuel IH]; intros j h h' H;
    unfold listRelatives_parent in H;
    destruct (parent_of s j) as [p|] eqn:Ep.
  - simpl in H. discriminate.
  - simpl in H. inversion H; subst. split.
    + exists []. now rewrite app_nil_r.
    + intros x. split; [auto|]. intros [Hx|Hx]; [exact Hx|].
      apply ancestor_inv in Hx. destruct Hx as (p & Hp & _). congruence.
  - cbn [walk_loop] in H. rewrite walk_step_single in H.
    apply IH in H. destruct H as ((t & Ht) & Hx).
    destruct (appended_extends p h) as (t0 & Ht0). split.
    + exists (t0 ++ t). rewrite Ht, Ht0. now rewrite app_assoc.
    + intros x. rewrite Hx, appended_joints, (ancestor_inv x j). split.
      * intros [[H1| ->]|H1].
        -- auto.
        -- right. exists p. auto.
        -- right. exists p. auto.
      * intros [H1|(q & Hq & Hrest)]; [auto|].
        rewrite Ep in Hq. inversion Hq; subst. tauto.
  - simpl in H. inversion H; subst. split.
    + exists []. now rewrite app_nil_r.
    + intros x. split; [auto|]. intros [Hx|Hx]; [exact Hx|].
      apply ancestor_inv in Hx. destruct Hx as (p & Hp & _). congruence.
Qed.

Lemma build_hierarchy_sound : forall fuel infl h h',
  build_hierarchy fuel s infl h = Returned h' ->
  (forall e, In e h -> In e h') /\
  (forall j, In j infl -> In (Joint j) h') /\
  forall x,
    In x (joints_of h') <->
    In x (joints_of h) \/ exists j, In j infl /\ (x = j \/ ancestor s x j).
Proof.
  intros fuel infl. induction infl as [|j rest IH]; intros h h' H; simpl in H.
  - inversion H; subst. repeat split; auto.
    + intros j [].
    + intros [Hx|(j & [] & _)]. exact Hx.
  - destruct (walk_loop fuel s (mkWalk (listRelatives_parent s j) (h ++ [Joint j])))
      as [h1| |] eqn:E; simpl in H; try discriminate.
    apply walk_loop_sound in E. destruct E as ((t & Ht) & Hx1).
    apply IH in H. destruct H as (Hkeep & Hjoints & Hx).
    assert (Hh1 : forall e, In e (h ++ [Joint j]) -> In e h1).
    { intros e He. rewrite Ht. apply in_or_app. now left. }
    split; [|split].
    + intros e He. apply Hkeep, Hh1. apply in_or_app. now left.
    + intros j0 [<-|Hj0]; [|now apply Hjoints].
      apply Hkeep, Hh1. apply in_or_app. right. now left.
    + intros x. rewrite Hx, Hx1, joints_of_app, in_app_iff. simpl. split.
      * intros [[[H1|[<-|[]]]|H1]|(j0 & Hj0 & H1)].
        -- auto.
        -- right. exists j. auto.
        -- right. exists j. auto.
        -- right. exists j0. auto.
      * intros [H1|(j0 & [<-|Hj0] & [->|H1])].
        -- auto.
        -- auto.
        -- auto.
        -- right. exists j0. auto.
        -- right. exists j0. auto.
Qed.

(** What the root search returns, when it returns. *)
Lemma find_root_sound : forall fuel j r,
  find_root fuel s j = Returned r ->
  parent_of s r = None /\ (r = j \/ ancestor s r j).
Proof.
  induction fuel as [|fuel IH]; intros j r H; simpl in H;
    unfold listRelatives_parent in H;
    destruct (parent_of s j) as [p|] eqn:Ep; try discriminate.
  - inversion H; subst. auto.
  - apply IH in H. destruct H as (Hr & Hchain). split; [exact Hr|].
    right. apply ancestor_inv. exists p. split; [exact Ep|].
    destruct Hchain; auto.
  - inversion H; subst. auto.
Qed.

(** The loop around the root search: each turn overwrites [root] with the
    root found from [j]. *)
Lemma root_loop_from_j : forall fuel j r h root0,
  find_root fuel s j = Returned r ->
  root_loop fuel s (Some j) h root0 =
  Returned (match h with [] => root0 | _ :: _ => Some r end).
Proof.
  intros fuel j r h. induction h as [|e rest IH]; intros root0 H; simpl.
  - reflexivity.
  - rewrite H. simpl. rewrite (IH (Some r) H). now destruct rest.
Qed.

(** *** Termination on a DAG *)

Variable depth : node -> nat.
Hypothesis Hdag : dag s depth.

Lemma walk_loop_total : forall fuel j h,
  depth j <= fuel ->
  exists h', walk_loop fuel s (mkWalk (listRelatives_parent s j) h) = Returned h'.
Proof.
  induction fuel as [|fuel IH]; intros j h Hd;
    unfold listRelatives_parent;
    destruct (parent_of s j) as [p|] eqn:Ep.
  - apply Hdag in Ep. lia.
  - simpl. eauto.
  - cbn [walk_loop]. rewrite walk_step_single.
    apply IH. apply Hdag in Ep. lia.
  - simpl. eauto.
Qed.

Lemma build_hierarchy_total : forall fuel infl h,
  (forall j, In j infl -> depth j <= fuel) ->
  exists h', build_hierarchy fuel s infl h = Returned h'.
Proof.
  intros fuel infl. induction infl as [|j rest IH]; intros h Hd; simpl.
  - eauto.
  - destruct (walk_loop_total fuel j (h ++ [Joint j])) as (h1 & E).
    + apply Hd. now left.
    + rewrite E. simpl. apply IH. intros j0 Hj0. apply Hd. now right.
Qed.

Lemma find_root_total : forall fuel j,
  depth j <= fuel -> exists r, find_root fuel s j = Returned r.
Proof.
  induction fuel as [|fuel IH]; intros j Hd; simpl;
    unfold listRelatives_parent;
    destruct (parent_of s j) as [p|] eqn:Ep; eauto.
  - apply Hdag in Ep. lia.
  - apply IH. apply Hdag in Ep. lia.
Qed.

End Walk.

(** ** get_joint_hierarchy as a whole *)

Lemma last_opt_In : forall (l : list node) x, last_opt l = Some x -> In x l.
Proof.
  intros l x. unfold last_opt. intros H.
  destruct (rev l) as [|y ys] eqn:E; [discriminate|].
  inversion H; subst. apply in_rev. rewrite E. now left.
Qed.

Lemma last_opt_nonempty : forall (l : list node),
  l <> [] -> exists x, last_opt l = Some x.
Proof.
  intros l H. unfold last_opt.
  destruct (rev l) as [|y ys] eqn:E; [|eauto].
  apply (f_equal (@rev node)) in E. rewrite rev_involutive in E. now elim H.
Qed.

(** The two phases behind a returned hierarchy. *)
Lemma get_joint_hierarchy_phases : forall fuel s geometry h,
  get_joint_hierarchy_on fuel s geometry false = Returned (Hierarchy h) ->
  exists infl,
    find_influential s (ls_type s "joint") geometry [] = Returned infl /\
    build_hierarchy fuel s infl [] = Returned h.
Proof.
  intros fuel s geometry h H. unfold get_joint_hierarchy_on in H.
  destruct (find_influential s (ls_type s "joint") geometry []) as [infl| |];
    simpl in H; try discriminate.
  destruct (build_hierarchy fuel s infl []) as [h0| |] eqn:Hb; simpl in H;
    try discriminate.
  inversion H; subst. exists infl. split; [reflexivity|exact Hb].
Qed.

Lemma influential_iff : forall s geometry infl,
  find_influential s (ls_type s "joint") geometry [] = Returned infl ->
  forall j, In j infl <-> influential s geometry j.
Proof.
  intros s geometry infl H j.
  rewrite (find_influential_sound s _ _ _ _ H j).
  unfold influential, influential_for. split.
  - intros [[]|(item & sc & Hi & Hrest)]. exists item. split; [exact Hi|].
    exists sc. exact Hrest.
  - intros (item & Hi & sc & Hrest). right. exists item, sc. tauto.
Qed.

(** A returned hierarchy holds exactly the closure of the influential joints. *)
Lemma get_joint_hierarchy_sound : forall fuel s geometry h,
  get_joint_hierarchy_on fuel s geometry false = Returned (Hierarchy h) ->
  forall x, In x (joints_of h) <-> in_closure s geometry x.
Proof.
  intros fuel s geometry h H x.
  destruct (get_joint_hierarchy_phases _ _ _ _ H) as (infl & Hinf & Hbuild).
  destruct (build_hierarchy_sound s _ _ _ _ Hbuild) as (_ & _ & Hx).
  rewrite Hx. unfold in_closure. simpl. split.
  - intros [[]|(j & Hj & Hc)]. exists j. split; [|exact Hc].
    now apply (influential_iff s geometry infl Hinf).
  - intros (j & Hj & Hc). right. exists j. split; [|exact Hc].
    now apply (influential_iff s geometry infl Hinf).
Qed.

(** On a DAG, with the fuel covering its depth, the hierarchy is returned
    as soon as every item has a skin cluster. *)
Lemma get_joint_hierarchy_total : forall fuel s depth geometry,
  dag s depth -> covers s depth fuel ->
  (forall m, In m geometry -> own_skin_cluster s m <> None) ->
  exists h, get_joint_hierarchy_on fuel s geometry false = Returned (Hierarchy h).
Proof.
  intros fuel s depth geometry Hdag Hcov Hskin.
  destruct (find_influential_total s (ls_type s "joint") geometry [] Hskin)
    as (infl & Hinf).
  destruct (build_hierarchy_total s depth Hdag fuel infl []) as (h & Hb).
  - intros j Hj. apply Hcov.
    apply (find_influential_sound s _ _ _ _ Hinf j) in Hj.
    destruct Hj as [[]|(item & sc & _ & _ & Hj & _)]. exact Hj.
  - exists h. unfold get_joint_hierarchy_on. rewrite Hinf. simpl.
    rewrite Hb. reflexivity.
Qed.

(** ** The sample scene is a DAG *)

Lemma sample_dag : dag sample sample_depth.
Proof.
  intros n p H. simpl in H.
  do 13 (destruct n as [|n]; [try discriminate H; inversion H; simpl; lia|]).
  discriminate H.
Qed.

Lemma sample_covers : covers sample sample_depth 5.
Proof.
  intros j Hj. simpl in Hj.
  repeat (destruct Hj as [<-|Hj]; [simpl; lia|]). elim Hj.
Qed.

(** ** Runs on the sample scene *)

Example sample_hierarchy :
  get_joint_hierarchy_on 5 sample [10; 11] false =
  Returned (Hierarchy [Joint 4; Parents [3]; Parents [2]; Parents [1]; Joint 5]).
Proof. reflexivity. Qed.

Example sample_hierarchy_other_order :
  get_joint_hierarchy_on 5 sample [11; 10] true =
  Returned (HierarchyAndRoot
              [Joint 5; Parents [2]; Parents [1]; Joint 4; Parents [3]] 1).
Proof. reflexivity. Qed.

Example sample_empty_geometry_root :
  get_joint_hierarchy_on 5 sample [] true = Raised (UnboundLocalError "root").
Proof. reflexivity. Qed.

Example sample_short_fuel :
  get_joint_hierarchy_on 2 sample [10] false = OutOfFuel.
Proof. reflexivity. Qed.

Example sample_script :
  run (script sample_host 5) sample =
  (Raised (NameError "mel"),
   mkWorld sample [Enter "rip_rig"; Enter "validate_selection";
                   Enter "get_joint_hierarchy"; Enter "isolate_geometry"]).
Proof. reflexivity. Qed.

(** ** Claims about the hierarchy *)

(** C1.  For a selection that validation accepts, on a scene whose parent
    links form a DAG and whose items each have a skin cluster,
    [get_joint_hierarchy] without root request returns a list whose joints
    are exactly the ancestor-closure of the influential joints: a node is in
    it if and only if it is an influential joint or an ancestor of one,
    where a joint is influential when its queried weight for some selected
    item is strictly positive. *)
Theorem joint_set_is_closure : forall fuel s depth selection geometry,
  dag s depth -> covers s depth fuel ->
  fst (run (validate_selection selection) s) = Returned (true, geometry) ->
  (forall m, In m geometry -> own_skin_cluster s m <> None) ->
  exists h,
    get_joint_hierarchy_on fuel s geometry false = Returned (Hierarchy h) /\
    forall x,
      In x (joints_of h) <->
      exists j,
        (exists item, In item geometry /\ influential_for s item j) /\
        (x = j \/ ancestor s x j).
Proof.
  intros fuel s depth selection geometry Hdag Hcov _ Hskin.
  destruct (get_joint_hierarchy_total fuel s depth geometry Hdag Hcov Hskin)
    as (h & Hh).
  exists h. split; [exact Hh|].
  intros x. apply (get_joint_hierarchy_sound _ _ _ _ Hh).
Qed.

Lemma joint_set_is_closure_witness :
  exists h,
    get_joint_hierarchy_on 5 sample [10; 11] false = Returned (Hierarchy h) /\
    forall x,
      In x (joints_of h) <->
      exists j,
        (exists item, In item [10; 11] /\ influential_for sample item j) /\
        (x = j \/ ancestor sample x j).
Proof.
  apply (joint_set_is_closure 5 sample sample_depth [10; 11] [10; 11]).
  - exact sample_dag.
  - exact sample_covers.
  - reflexivity.
  - intros m [<-|[<-|[]]]; discriminate.
Defined.

(** C5.  For two meshes that each have a skin deformer, the influence loop
    looks up the weights of each mesh on that mesh's own deformer
    ([influential_for] is stated on [own_skin_cluster]), so the kept joints
    are exactly the influential joints of either mesh with their ancestor
    chains; in particular every influential joint of each mesh and each of
    its ancestors is kept.  Nothing is asked of the two deformers, so this
    covers deformers that are distinct and share no joint. *)
Theorem two_meshes_own_deformers : forall fuel s depth m1 m2 sc1 sc2,
  dag s depth -> covers s depth fuel ->
  own_skin_cluster s m1 = Some sc1 ->
  own_skin_cluster s m2 = Some sc2 ->
  exists h,
    get_joint_hierarchy_on fuel s [m1; m2] false = Returned (Hierarchy h) /\
    (forall m j,
       m = m1 \/ m = m2 ->
       influential_for s m j ->
       In j (joints_of h) /\ forall a, ancestor s a j -> In a (joints_of h)) /\
    (forall x,
       In x (joints_of h) ->
       exists m j,
         (m = m1 \/ m = m2) /\ influential_for s m j /\ (x = j \/ ancestor s x j)).
Proof.
  intros fuel s depth m1 m2 sc1 sc2 Hdag Hcov H1 H2.
  destruct (get_joint_hierarchy_total fuel s depth [m1; m2] Hdag Hcov) as (h & Hh).
  { intros m [<-|[<-|[]]]; congruence. }
  exists h. split; [exact Hh|]. split.
  - intros m j Hm Hinf.
    assert (Hj : influential s [m1; m2] j).
    { exists m. split; [|exact Hinf]. simpl. destruct Hm; auto. }
    split.
    + apply (get_joint_hierarchy_sound _ _ _ _ Hh). exists j. auto.
    + intros a Ha. apply (get_joint_hierarchy_sound _ _ _ _ Hh). exists j. auto.
  - intros x Hx. apply (get_joint_hierarchy_sound _ _ _ _ Hh) in Hx.
    destruct Hx as (j & (m & Hm & Hinf) & Hc).
    exists m, j. split; [|auto].
    simpl in Hm. destruct Hm as [<-|[<-|[]]]; auto.
Qed.

Lemma two_meshes_own_deformers_witness :
  exists h,
    get_joint_hierarchy_on 5 sample [10; 11] false = Returned (Hierarchy h) /\
    (forall m j,
       m = 10 \/ m = 11 ->
       influential_for sample m j ->
       In j (joints_of h) /\ forall a, ancestor sample a j -> In a (joints_of h)) /\
    (forall x,
       In x (joints_of h) ->
       exists m j,
         (m = 10 \/ m = 11) /\ influential_for sample m j /\
         (x = j \/ ancestor sample x j)).
Proof.
  apply (two_meshes_own_deformers 5 sample sample_depth 10 11 30 31).
  - exact sample_dag.
  - exact sample_covers.
  - reflexivity.
  - reflexivity.
Defined.

(** C7.  When the hierarchy computed for a geometry is not empty, the call
    with [root_request = True] returns that hierarchy paired with a root:
    a node without parent, reached along the parent links from a joint that
    is an element of the hierarchy (the joint left in [j] by the loop over
    the influential joints). *)
Theorem root_request_returns_root : forall fuel s depth geometry h,
  dag s depth -> covers s depth fuel ->
  get_joint_hierarchy_on fuel s geometry false = Returned (Hierarchy h) ->
  h <> [] ->
  exists root j,
    get_joint_hierarchy_on fuel s geometry true =
      Returned (HierarchyAndRoot h root) /\
    parent_of s root = None /\
    In (Joint j) h /\
    (root = j \/ ancestor s root j).
Proof.
  intros fuel s depth geometry h Hdag Hcov H Hne.
  destruct (get_joint_hierarchy_phases _ _ _ _ H) as (infl & Hinf & Hbuild).
  assert (Hinfl : infl <> []).
  { intros ->. simpl in Hbuild. inversion Hbuild. now subst. }
  destruct (last_opt_nonempty infl Hinfl) as (j & Hj).
  assert (Hjin : In j infl) by now apply last_opt_In.
  destruct (build_hierarchy_sound s _ _ _ _ Hbuild) as (_ & Hjoints & _).
  assert (Hjoint : In j (ls_type s "joint")).
  { apply (find_influential_sound s _ _ _ _ Hinf j) in Hjin.
    destruct Hjin as [[]|(item & sc & _ & _ & Hjj & _)]. exact Hjj. }
  destruct (find_root_total s depth Hdag fuel j (Hcov j Hjoint)) as (r & Hr).
  exists r, j. split; [|split; [|split]].
  - unfold get_joint_hierarchy_on. rewrite Hinf. simpl. rewrite Hbuild. simpl.
    unfold leftover_j. rewrite Hj.
    rewrite (root_loop_from_j s fuel j r h None Hr).
    destruct h as [|e rest]; [now elim Hne|]. reflexivity.
  - apply (find_root_sound s fuel j r Hr).
  - now apply Hjoints.
  - apply (find_root_sound s fuel j r Hr).
Qed.

Lemma root_request_returns_root_witness :
  exists root j,
    get_joint_hierarchy_on 5 sample [10; 11] true =
      Returned (HierarchyAndRoot
                  [Joint 4; Parents [3]; Parents [2]; Parents [1]; Joint 5] root) /\
    parent_of sample root = None /\
    In (Joint j) [Joint 4; Parents [3]; Parents [2]; Parents [1]; Joint 5] /\
    (root = j \/ ancestor sample root j).
Proof.
  apply (root_request_returns_root 5 sample sample_depth [10; 11]
           [Joint 4; Parents [3]; Parents [2]; Parents [1]; Joint 5]).
  - exact sample_dag.
  - exact sample_covers.
  - reflexivity.
  - discriminate.
Defined.

(** ** The states of the walk *)

Lemma walk_step_stops : forall s w,
  walk_step s w = None <-> joint_parent w = [].
Proof.
  intros s w. unfold walk_step. destruct (joint_parent w).
  - tauto.
  - split; discriminate.
Qed.

Lemma walk_step_hierarchy : forall s w w',
  walk_step s w = Some w' ->
  joint_parent w' = listRelatives_parents s (joint_parent w) /\
  joint_hierarchy w' =
    if mem_entry (Parents (joint_parent w)) (joint_hierarchy w)
    then joint_hierarchy w
    else joint_hierarchy w ++ [Parents (joint_parent w)].
Proof.
  intros s w w'. unfold walk_step. destruct (joint_parent w).
  - discriminate.
  - intros H. inversion H. simpl. auto.
Qed.

(** On a DAG the loop started above [j] goes through one state for each
    ancestor of [j], whatever the list already holds, and then through the
    state without parent, where it returns. *)
Lemma walk_states_chain : forall s depth,
  dag s depth ->
  forall fuel j h,
    depth j <= fuel ->
    exists pre h',
      walk_states fuel s (mkWalk (listRelatives_parent s j) h) =
        pre ++ [mkWalk [] h'] /\
      walk_loop fuel s (mkWalk (listRelatives_parent s j) h) = Returned h' /\
      (forall w, In w pre -> exists a, joint_parent w = [a] /\ ancestor s a j) /\
      (forall a, ancestor s a j -> exists w, In w pre /\ joint_parent w = [a]).
Proof.
  intros s depth Hdag.
  induction fuel as [|fuel IH]; intros j h Hd;
    unfold listRelatives_parent;
    destruct (parent_of s j) as [p|] eqn:Ep.
  - apply Hdag in Ep. lia.
  - exists [], h. simpl. repeat split.
    + intros w [].
    + intros a Ha. apply ancestor_inv in Ha. destruct Ha as (q & Hq & _). congruence.
  - cbn [walk_states walk_loop]. rewrite walk_step_single.
    destruct (IH p (if mem_entry (Parents [p]) h then h else h ++ [Parents [p]]))
      as (pre & h' & Hws & Hloop & Hpre & Hall).
    { apply Hdag in Ep. lia. }
    exists (mkWalk [p] h :: pre), h'. rewrite Hws. repeat split.
    + exact Hloop.
    + intros w [<-|Hw].
      * exists p. split; [reflexivity|]. now apply ancestor_parent.
      * destruct (Hpre w Hw) as (a & Ha & Hanc). exists a. split; [exact Ha|].
        now apply ancestor_step with p.
    + intros a Ha. apply ancestor_inv in Ha. destruct Ha as (q & Hq & Hc).
      rewrite Ep in Hq. inversion Hq; subst q.
      destruct Hc as [->|Hc].
      * exists (mkWalk [p] h). split; [now left|reflexivity].
      * destruct (Hall a Hc) as (w & Hw & Hwa). exists w. split; [now right|exact Hwa].
  - exists [], h. simpl. repeat split.
    + intros w [].
    + intros a Ha. apply ancestor_inv in Ha. destruct Ha as (q & Hq & _). congruence.
Qed.

(** C6, as the claim words it, fails.  In the run on the sample scene with
    meshes 10 and 11 selected, the walk above joint 5 meets its parent 2,
    which the walk above joint 4 has already put in the list.  The loop does
    not stop there: it goes on to 1 and stops only above it. *)
Lemma walk_continues_past_present :
  let h4 := [Joint 4; Parents [3]; Parents [2]; Parents [1]] in
  let w0 := mkWalk (listRelatives_parent sample 5) (h4 ++ [Joint 5]) in
  get_joint_hierarchy_on 5 sample [10; 11] false = Returned (Hierarchy (h4 ++ [Joint 5])) /\
  walk_loop 5 sample (mkWalk (listRelatives_parent sample 4) [Joint 4]) = Returned h4 /\
  joint_parent w0 = [2] /\
  mem_entry (Parents (joint_parent w0)) (joint_hierarchy w0) = true /\
  walk_states 5 sample w0 =
    [w0; mkWalk [1] (h4 ++ [Joint 5]); mkWalk [] (h4 ++ [Joint 5])] /\
  ~ (walk_step sample w0 = None <->
     joint_parent w0 = [] \/
     mem_entry (Parents (joint_parent w0)) (joint_hierarchy w0) = true).
Proof.
  repeat split; try reflexivity.
  intros [_ H]. assert (E : walk_step sample
    (mkWalk (listRelatives_parent sample 5)
            ([Joint 4; Parents [3]; Parents [2]; Parents [1]] ++ [Joint 5])) = None).
  { apply H. right. reflexivity. }
  discriminate E.
Qed.

(** * Further properties of the code *)

(** ** Validation *)

(** X2.  Whatever the selection, [validate_selection] returns a prefix of it
    that holds meshes only, also when it answers invalid; it answers valid
    exactly when the prefix is the whole selection, which is when every item
    is a mesh; it leaves the scene alone and shows the warning once when it
    answers invalid and not at all otherwise. *)
Theorem validate_selection_prefix : forall selection w,
  exists valid geometry post,
    validate_selection selection w =
      (Returned (valid, geometry),
       logged w (Enter "validate_selection" ::
                 (if valid : bool then []
                  else [Warning "please select only faces"]))) /\
    selection = geometry ++ post /\
    Forall (is_mesh (w_scene w)) geometry /\
    (valid = true <-> post = []) /\
    (valid = true <-> Forall (is_mesh (w_scene w)) selection).
Proof.
  intros selection w. rewrite validate_selection_run.
  destruct (forallb (is_meshb (w_scene w)) selection) eqn:E.
  - exists true, selection, []. rewrite app_nil_r.
    apply forallb_is_mesh in E. repeat split; auto.
  - destruct (mesh_prefix_split (w_scene w) selection E) as (i & post & Hs & Hall & Hi).
    exists false, (mesh_prefix (w_scene w) selection), (i :: post).
    repeat split; auto; try discriminate.
    intros H. apply forallb_is_mesh in H. congruence.
Qed.

(** ** The outcome of a run *)

(** X1.  On the empty selection validation passes without a warning, the
    hierarchy is the empty list whatever the scene and the fuel, and the
    run then ends with the [NameError] of [isolate_geometry]: the empty
    selection is not turned away. *)
Theorem rip_rig_empty_selection : forall h fuel s,
  run (validate_selection []) s =
    (Returned (true, []), mkWorld s [Enter "validate_selection"]) /\
  get_joint_hierarchy_on fuel s [] false = Returned (Hierarchy []) /\
  run (rip_rig h fuel []) s =
    (Raised (NameError "mel"),
     mkWorld s [Enter "rip_rig"; Enter "validate_selection";
                Enter "get_joint_hierarchy"; Enter "isolate_geometry"]).
Proof.
  intros h fuel s. repeat split.
Qed.

(** ** The hierarchy as a set *)

(** X5.  When the hierarchy computed for a geometry is empty, the call with
    [root_request = True] does not return: the loop that binds [root] never
    runs and line 88 raises [UnboundLocalError]. *)
Theorem root_request_empty_raises : forall fuel s geometry,
  get_joint_hierarchy_on fuel s geometry false = Returned (Hierarchy []) ->
  get_joint_hierarchy_on fuel s geometry true = Raised (UnboundLocalError "root").
Proof.
  intros fuel s geometry H.
  destruct (get_joint_hierarchy_phases _ _ _ _ H) as (infl & Hinf & Hbuild).
  unfold get_joint_hierarchy_on. rewrite Hinf. simpl. rewrite Hbuild. reflexivity.
Qed.

Lemma root_request_empty_raises_witness :
  get_joint_hierarchy_on 5 sample2 [13] false = Returned (Hierarchy []) /\
  get_joint_hierarchy_on 5 sample2 [13] true = Raised (UnboundLocalError "root").
Proof.
  split.
  - reflexivity.
  - apply (root_request_empty_raises 5 sample2 [13]). reflexivity.
Defined.

(** X7.  The joint set does not depend on the order of the geometry list
    nor on repeated items: two lists with the same items give hierarchies
    with the same joints, although the lists returned may differ. *)
Theorem joint_set_order_independent : forall fuel fuel' s geometry geometry' h h',
  (forall m, In m geometry <-> In m geometry') ->
  get_joint_hierarchy_on fuel s geometry false = Returned (Hierarchy h) ->
  get_joint_hierarchy_on fuel' s geometry' false = Returned (Hierarchy h') ->
  forall x, In x (joints_of h) <-> In x (joints_of h').
Proof.
  intros fuel fuel' s geometry geometry' h h' Hsame H H' x.
  rewrite (get_joint_hierarchy_sound _ _ _ _ H x).
  rewrite (get_joint_hierarchy_sound _ _ _ _ H' x).
  unfold in_closure, influential. split.
  - intros (j & (item & Hi & Hinf) & Hc). exists j. split; [|exact Hc].
    exists item. split; [now apply Hsame|exact Hinf].
  - intros (j & (item & Hi & Hinf) & Hc). exists j. split; [|exact Hc].
    exists item. split; [now apply Hsame|exact Hinf].
Qed.

Lemma joint_set_order_independent_witness :
  get_joint_hierarchy_on 5 sample [11; 10; 11] false =
    Returned (Hierarchy [Joint 5; Parents [2]; Parents [1]; Joint 4; Parents [3]]) /\
  forall x,
    In x (joints_of [Joint 4; Parents [3]; Parents [2]; Parents [1]; Joint 5]) <->
    In x (joints_of [Joint 5; Parents [2]; Parents [1]; Joint 4; Parents [3]]).
Proof.
  split; [reflexivity|].
  apply (joint_set_order_independent 5 5 sample [10; 11] [11; 10; 11]).
  - intros m. simpl. tauto.
  - reflexivity.
  - reflexivity.
Defined.

(** X8.  The joint set is closed under the parent link: the parent of a
    node of the returned hierarchy is in the hierarchy too. *)
Theorem joint_set_closed_under_parent : forall fuel s geometry h x p,
  get_joint_hierarchy_on fuel s geometry false = Returned (Hierarchy h) ->
  In x (joints_of h) ->
  parent_of s x = Some p ->
  In p (joints_of h).
Proof.
  intros fuel s geometry h x p H Hx Hp.
  apply (get_joint_hierarchy_sound _ _ _ _ H) in Hx.
  apply (get_joint_hierarchy_sound _ _ _ _ H).
  destruct Hx as (j & Hj & Hc). exists j. split; [exact Hj|]. right.
  destruct Hc as [->|Hc].
  - now apply ancestor_parent.
  - clear Hj. induction Hc as [n q Hq|n q a Hq Hc IH].
    + apply ancestor_step with q; [exact Hq|]. now apply ancestor_parent.
    + apply ancestor_step with q; [exact Hq|]. now apply IH.
Qed.

Lemma joint_set_closed_under_parent_witness :
  In 2 (joints_of [Joint 4; Parents [3]; Parents [2]; Parents [1]; Joint 5]).
Proof.
  apply (joint_set_closed_under_parent 5 sample [10; 11]
           [Joint 4; Parents [3]; Parents [2]; Parents [1]; Joint 5] 5 2).
  - reflexivity.
  - simpl. auto 10.
  - reflexivity.
Defined.

(** ** The influential joints as a list *)

Lemma NoDup_snoc : forall (A : Type) (l : list A) (x : A),
  NoDup l -> ~ In x l -> NoDup (l ++ [x]).
Proof.
  intros A l x Hl Hx. induction Hl as [|y l Hy Hl IH]; simpl.
  - constructor; [intros []|constructor].
  - constructor.
    + rewrite in_app_iff. simpl. intros [H|[H|[]]].
      * now apply Hy.
      * apply Hx. now left.
    + apply IH. intros H. apply Hx. now right.
Qed.

Lemma mem_node_false : forall x l, mem_node x l = false <-> ~ In x l.
Proof.
  intros x l. rewrite <- mem_node_In. destruct (mem_node x l); split; congruence.
Qed.

Lemma scan_joint_grows : forall s sc vert ci infl x,
  NoDup infl ->
  NoDup (scan_joint s sc vert ci infl x) /\
  exists t, scan_joint s sc vert ci infl x = infl ++ t.
Proof.
  intros s sc vert ci infl x Hn. unfold scan_joint.
  destruct (mem_node x ci);
    [destruct (positive_weight (skinPercent s sc vert x));
     [destruct (mem_node x infl) eqn:E|]|]; simpl;
    try (split; [exact Hn|exists []; now rewrite app_nil_r]).
  split; [|now exists [x]].
  apply NoDup_snoc; [exact Hn|]. now apply mem_node_false.
Qed.

Lemma scan_all_grows : forall s sc vert ci all_joints infl,
  NoDup infl ->
  NoDup (fold_left (scan_joint s sc vert ci) all_joints infl) /\
  exists t, fold_left (scan_joint s sc vert ci) all_joints infl = infl ++ t.
Proof.
  intros s sc vert ci all_joints.
  induction all_joints as [|x rest IH]; intros infl Hn; simpl.
  - split; [exact Hn|exists []; now rewrite app_nil_r].
  - destruct (scan_joint_grows s sc vert ci infl x Hn) as (Hn1 & t1 & E1).
    destruct (IH _ Hn1) as (Hn2 & t2 & E2). split; [exact Hn2|].
    exists (t1 ++ t2). rewrite E2, E1. now rewrite app_assoc.
Qed.

Lemma find_influential_grows : forall s all_joints geometry infl0 infl,
  find_influential s all_joints geometry infl0 = Returned infl ->
  NoDup infl0 ->
  NoDup infl /\ exists t, infl = infl0 ++ t.
Proof.
  intros s all_joints geometry.
  induction geometry as [|vert rest IH]; intros infl0 infl H Hn; simpl in H.
  - inversion H; subst. split; [exact Hn|exists []; now rewrite app_nil_r].
  - destruct (ls_among s (listHistory s vert) "skinCluster") as [|sc scs];
      [discriminate|].
    destruct (scan_all_grows s sc vert (skin_influences s sc) all_joints infl0 Hn)
      as (Hn1 & t1 & E1).
    destruct (IH _ _ H Hn1) as (Hn2 & t2 & E2). split; [exact Hn2|].
    exists (t1 ++ t2). rewrite E2, E1. now rewrite app_assoc.
Qed.

(** X3.  The list of influential joints never holds a joint twice and holds
    joints of the scene only; the joints found for the first items of the
    geometry come first: the list found for a geometry starts with the list
    found for any of its prefixes. *)
Theorem influential_joints_list : forall s geometry more infl,
  find_influential s (ls_type s "joint") (geometry ++ more) [] = Returned infl ->
  NoDup infl /\
  (forall j, In j infl -> In j (ls_type s "joint")) /\
  exists first rest,
    find_influential s (ls_type s "joint") geometry [] = Returned first /\
    infl = first ++ rest.
Proof.
  intros s geometry more infl H. split; [|split].
  - apply (find_influential_grows s _ _ _ _ H). constructor.
  - intros j Hj. apply (find_influential_sound s _ _ _ _ H j) in Hj.
    destruct Hj as [[]|(item & sc & _ & _ & Hjj & _)]. exact Hjj.
  - assert (G : forall acc,
               NoDup acc ->
               find_influential s (ls_type s "joint") (geometry ++ more) acc =
                 Returned infl ->
               exists first rest,
                 find_influential s (ls_type s "joint") geometry acc =
                   Returned first /\ infl = first ++ rest).
    { clear H. induction geometry as [|vert tl IH]; intros acc Hn H; simpl in *.
      - exists acc. destruct (find_influential_grows s _ _ _ _ H Hn) as (_ & t & E).
        exists t. split; [reflexivity|exact E].
      - destruct (ls_among s (listHistory s vert) "skinCluster") as [|sc scs];
          [discriminate|].
        apply IH; [|exact H].
        apply (scan_all_grows s sc vert (skin_influences s sc) _ acc Hn). }
    apply G; [constructor|exact H].
Qed.

Lemma influential_joints_list_witness :
  NoDup [4; 5] /\
  (forall j, In j [4; 5] -> In j (ls_type sample "joint")) /\
  exists first rest,
    find_influential sample (ls_type sample "joint") [10] [] = Returned first /\
    [4; 5] = first ++ rest.
Proof.
  apply (influential_joints_list sample [10] [11] [4; 5]). reflexivity.
Defined.

Lemma scan_all_filter : forall s sc vert all_joints infl,
  NoDup all_joints ->
  fold_left (scan_joint s sc vert (skin_influences s sc)) all_joints infl =
  infl ++ filter (fun j => weighted s sc vert j && negb (mem_node j infl)) all_joints.
Proof.
  intros s sc vert all_joints.
  induction all_joints as [|x rest IH]; intros infl Hn; simpl.
  - now rewrite app_nil_r.
  - inversion Hn as [|y l Hx Hrest]; subst.
    rewrite (IH _ Hrest). unfold scan_joint, weighted.
    destruct (mem_node x (skin_influences s sc)); simpl; [|reflexivity].
    destruct (positive_weight (skinPercent s sc vert x)); simpl; [|reflexivity].
    destruct (mem_node x infl) eqn:E; simpl; [reflexivity|].
    rewrite <- app_assoc. simpl. f_equal. f_equal.
    apply filter_ext_in. intros j Hj. f_equal. f_equal.
    unfold mem_node. rewrite existsb_app. simpl.
    destruct (Nat.eqb_spec j x) as [->|Hne]; [now elim Hx|].
    now rewrite !orb_false_r.
Qed.

(** X11.  For one item with a skin cluster, when the scene lists each joint
    once, the influential joints are the scene's joints that are influences
    of that skin cluster with a strictly positive weight, in the order in
    which the scene lists them. *)
Theorem influential_joints_one_item : forall s vert sc,
  own_skin_cluster s vert = Some sc ->
  NoDup (ls_type s "joint") ->
  find_influential s (ls_type s "joint") [vert] [] =
  Returned (filter (weighted s sc vert) (ls_type s "joint")).
Proof.
  intros s vert sc Hsc Hn. simpl. unfold own_skin_cluster in Hsc.
  destruct (ls_among s (listHistory s vert) "skinCluster") as [|sc0 scs];
    [discriminate|].
  simpl in Hsc. inversion Hsc; subst sc0.
  rewrite (scan_all_filter s sc vert _ [] Hn). simpl. f_equal.
  apply filter_ext. intros j. now rewrite andb_true_r.
Qed.

Lemma influential_joints_one_item_witness :
  find_influential sample2 (ls_type sample2 "joint") [10] [] =
  Returned (filter (weighted sample2 30 10) (ls_type sample2 "joint")).
Proof.
  apply (influential_joints_one_item sample2 10 30).
  - reflexivity.
  - simpl. repeat (constructor; [simpl; intuition discriminate|]). constructor.
Defined.

(** ** The hierarchy as a list *)

Lemma mem_entry_false : forall ps h,
  mem_entry (Parents ps) h = false <-> ~ In (Parents ps) h.
Proof.
  intros ps h. rewrite <- mem_entry_Parents.
  destruct (mem_entry (Parents ps) h); split; congruence.
Qed.

Lemma joint_entries_app : forall h t,
  joint_entries (h ++ t) = joint_entries h ++ joint_entries t.
Proof.
  intros h t. unfold joint_entries. apply flat_map_app.
Qed.

(** What one walk appends, entry by entry. *)
Lemma walk_loop_entries : forall s fuel j h h',
  walk_loop fuel s (mkWalk (listRelatives_parent s j) h) = Returned h' ->
  exists t,
    h' = h ++ t /\
    (forall e, In e t -> exists a, e = Parents [a] /\ ancestor s a j) /\
    (forall a, ancestor s a j -> In (Parents [a]) h') /\
    (NoDup h -> NoDup h').
Proof.
  intros s. induction fuel as [|fuel IH]; intros j h h' H;
    unfold listRelatives_parent in H;
    destruct (parent_of s j) as [p|] eqn:Ep;
    try (simpl in H; discriminate);
    try (simpl in H; inversion H; subst; exists []; rewrite app_nil_r;
         repeat split; auto;
         [ intros e []
         | intros a Ha; apply ancestor_inv in Ha;
           destruct Ha as (q & Hq & _); congruence ]).
  cbn [walk_loop] in H. rewrite walk_step_single in H.
  apply IH in H. destruct H as (t & Ht & Hshape & Hall & Hnd).
  destruct (mem_entry (Parents [p]) h) eqn:Em.
  - exists t. split; [exact Ht|]. split; [|split].
    + intros e He. destruct (Hshape e He) as (a & -> & Ha).
      exists a. split; [reflexivity|]. now apply ancestor_step with p.
    + intros a Ha. apply ancestor_inv in Ha. destruct Ha as (q & Hq & Hc).
      rewrite Ep in Hq. inversion Hq; subst q. destruct Hc as [->|Hc].
      * rewrite Ht. apply in_or_app. left. now apply mem_entry_Parents.
      * now apply Hall.
    + exact Hnd.
  - exists (Parents [p] :: t). split; [|split; [|split]].
    + rewrite Ht, <- app_assoc. reflexivity.
    + intros e [<-|He].
      * exists p. split; [reflexivity|]. now apply ancestor_parent.
      * destruct (Hshape e He) as (a & -> & Ha).
        exists a. split; [reflexivity|]. now apply ancestor_step with p.
    + intros a Ha. apply ancestor_inv in Ha. destruct Ha as (q & Hq & Hc).
      rewrite Ep in Hq. inversion Hq; subst q. destruct Hc as [->|Hc].
      * rewrite Ht. apply in_or_app. left. apply in_or_app. right. now left.
      * now apply Hall.
    + intros Hn. apply Hnd. apply NoDup_snoc; [exact Hn|].
      now apply mem_entry_false.
Qed.

Lemma parents_only_joint_entries : forall s j t,
  (forall e, In e t -> exists a, e = Parents [a] /\ ancestor s a j) ->
  joint_entries t = [].
Proof.
  intros s j t. induction t as [|e t IH]; intros H; [reflexivity|].
  destruct (H e (or_introl eq_refl)) as (a & -> & _). simpl.
  apply IH. intros e' He'. apply H. now right.
Qed.

Lemma build_hierarchy_entries : forall s fuel infl h h',
  build_hierarchy fuel s infl h = Returned h' ->
  NoDup infl ->
  (forall j, In j infl -> ~ In (Joint j) h) ->
  joint_entries h' = joint_entries h ++ infl /\
  (forall j a, In j infl -> ancestor s a j -> In (Parents [a]) h') /\
  (forall e, In e h' ->
     In e h \/
     exists j, In j infl /\ (e = Joint j \/ exists a, e = Parents [a] /\ ancestor s a j)) /\
  (NoDup h -> NoDup h').
Proof.
  intros s fuel infl. induction infl as [|j rest IH]; intros h h' H Hn Hfresh;
    simpl in H.
  - inversion H; subst. rewrite app_nil_r. repeat split; auto.
    intros j a [].
  - destruct (walk_loop fuel s (mkWalk (listRelatives_parent s j) (h ++ [Joint j])))
      as [h1| |] eqn:E; simpl in H; try discriminate.
    apply walk_loop_entries in E. destruct E as (t & Ht & Hshape & Hall & Hnd).
    inversion Hn as [|x l Hj Hrest]; subst x l.
    destruct (build_hierarchy_sound s fuel rest h1 h' H) as (Hkeep & _).
    apply IH in H; [|exact Hrest|].
    + destruct H as (Hje & Hpar & Hin & Hnd').
      split; [|split; [|split]].
      * rewrite Hje, Ht, !joint_entries_app.
        rewrite (parents_only_joint_entries s j t Hshape). simpl.
        rewrite app_nil_r, <- app_assoc. reflexivity.
      * intros j0 a [<-|Hj0] Ha; [|now apply (Hpar j0)].
        apply Hkeep. now apply Hall.
      * intros e He. destruct (Hin e He) as [He1|(j0 & Hj0 & Hc)].
        -- rewrite Ht in He1. apply in_app_or in He1. destruct He1 as [He1|He1].
           ++ apply in_app_or in He1. destruct He1 as [He1|[<-|[]]]; [auto|].
              right. exists j. split; [now left|now left].
           ++ right. exists j. split; [now left|]. right.
              destruct (Hshape e He1) as (a & -> & Ha). eauto.
        -- right. exists j0. split; [now right|exact Hc].
      * intros Hh. apply Hnd', Hnd. apply NoDup_snoc; [exact Hh|].
        apply Hfresh. now left.
    + intros j0 Hj0 Hin0. rewrite Ht in Hin0.
      apply in_app_or in Hin0. destruct Hin0 as [Hin0|Hin0].
      * apply in_app_or in Hin0. destruct Hin0 as [Hin0|[Hin0|[]]].
        -- apply (Hfresh j0); [now right|exact Hin0].
        -- inversion Hin0; subst. contradiction.
      * destruct (Hshape _ Hin0) as (a & Ha & _). discriminate.
Qed.

(** X4.  The returned hierarchy holds no element twice.  Its elements are
    the influential joints, as themselves and in the order in which they
    were found, and one-element parent lists, each holding an ancestor of an
    influential joint. *)
Theorem hierarchy_entries : forall fuel s geometry h,
  get_joint_hierarchy_on fuel s geometry false = Returned (Hierarchy h) ->
  NoDup h /\
  find_influential s (ls_type s "joint") geometry [] = Returned (joint_entries h) /\
  forall e, In e h ->
    (exists j, e = Joint j /\ influential s geometry j) \/
    (exists a j, e = Parents [a] /\ influential s geometry j /\ ancestor s a j).
Proof.
  intros fuel s geometry h H.
  destruct (get_joint_hierarchy_phases _ _ _ _ H) as (infl & Hinf & Hbuild).
  assert (Hn : NoDup infl).
  { apply (find_influential_grows s _ _ _ _ Hinf). constructor. }
  destruct (build_hierarchy_entries s fuel infl [] h Hbuild Hn)
    as (Hje & _ & Hin & Hnd).
  { intros j _ []. }
  split; [apply Hnd; constructor|]. split.
  - rewrite Hje. exact Hinf.
  - intros e He. destruct (Hin e He) as [[]|(j & Hj & Hc)].
    apply (influential_iff s geometry infl Hinf) in Hj.
    destruct Hc as [->|(a & -> & Ha)]; [left|right]; eauto.
Qed.

Lemma hierarchy_entries_witness :
  NoDup [Joint 3; Parents [2]; Parents [1]; Joint 4; Parents [3]] /\
  find_influential sample2 (ls_type sample2 "joint") [10] [] =
    Returned (joint_entries [Joint 3; Parents [2]; Parents [1]; Joint 4; Parents [3]]) /\
  forall e, In e [Joint 3; Parents [2]; Parents [1]; Joint 4; Parents [3]] ->
    (exists j, e = Joint j /\ influential sample2 [10] j) \/
    (exists a j, e = Parents [a] /\ influential sample2 [10] j /\ ancestor sample2 a j).
Proof.
  apply (hierarchy_entries 5 sample2 [10]). reflexivity.
Defined.

(** X12.  An influential joint that is also an ancestor of an influential
    joint is in the returned list twice, once as itself and once inside a
    parent list, whatever the order of discovery: the membership test of
    line 71 compares the parent list with the elements and finds no joint
    equal to it.  The flattened joint list then has a repetition. *)
Theorem joint_listed_twice : forall fuel s geometry h j below,
  get_joint_hierarchy_on fuel s geometry false = Returned (Hierarchy h) ->
  influential s geometry j ->
  influential s geometry below ->
  ancestor s j below ->
  In (Joint j) h /\ In (Parents [j]) h /\ ~ NoDup (joints_of h).
Proof.
  intros fuel s geometry h j below H Hj Hb Hanc.
  destruct (get_joint_hierarchy_phases _ _ _ _ H) as (infl & Hinf & Hbuild).
  apply (influential_iff s geometry infl Hinf) in Hj, Hb.
  assert (Hn : NoDup infl).
  { apply (find_influential_grows s _ _ _ _ Hinf). constructor. }
  destruct (build_hierarchy_sound s fuel infl [] h Hbuild) as (_ & Hjoint & _).
  destruct (build_hierarchy_entries s fuel infl [] h Hbuild Hn) as (_ & Hpar & _).
  { intros j0 _ []. }
  assert (H1 : In (Joint j) h) by now apply Hjoint.
  assert (H2 : In (Parents [j]) h) by now apply (Hpar below).
  split; [exact H1|]. split; [exact H2|].
  destruct (in_split _ _ H1) as (l1 & l2 & ->).
  rewrite joints_of_app. simpl. intros Hnd.
  apply NoDup_remove_2 in Hnd. apply Hnd.
  apply in_app_or in H2. apply in_or_app.
  destruct H2 as [H2|[H2|H2]]; [left| discriminate H2 |right];
    apply In_joints_of; exists (Parents [j]); simpl; auto.
Qed.

Lemma joint_listed_twice_witness :
  In (Joint 3) [Joint 3; Parents [2]; Parents [1]; Joint 4; Parents [3]] /\
  In (Parents [3]) [Joint 3; Parents [2]; Parents [1]; Joint 4; Parents [3]] /\
  ~ NoDup (joints_of [Joint 3; Parents [2]; Parents [1]; Joint 4; Parents [3]]).
Proof.
  apply (joint_listed_twice 5 sample2 [10]
           [Joint 3; Parents [2]; Parents [1]; Joint 4; Parents [3]] 3 4).
  - reflexivity.
  - exists 10. split; [now left|]. exists 30. repeat split; simpl; auto.
  - exists 10. split; [now left|]. exists 30. repeat split; simpl; auto 10.
  - apply ancestor_parent. reflexivity.
Defined.

(** ** The root *)

Lemma top_unique : forall s j r r',
  parent_of s r = None -> r = j \/ ancestor s r j ->
  parent_of s r' = None -> r' = j \/ ancestor s r' j ->
  r = r'.
Proof.
  intros s j r r' Hr [->|Hc] Hr' Hc'.
  - destruct Hc' as [->|Hc']; [reflexivity|].
    apply ancestor_inv in Hc'. destruct Hc' as (p & Hp & _). congruence.
  - revert r' Hr' Hc'. induction Hc as [n p Hp|n p a Hp Hc IH]; intros r' Hr' Hc'.
    + destruct Hc' as [->|Hc']; [congruence|].
      apply ancestor_inv in Hc'. destruct Hc' as (q & Hq & Hc').
      rewrite Hp in Hq. inversion Hq; subst q.
      destruct Hc' as [->|Hc']; [reflexivity|].
      apply ancestor_inv in Hc'. destruct Hc' as (q & Hq' & _). congruence.
    + destruct Hc' as [->|Hc']; [congruence|].
      apply ancestor_inv in Hc'. destruct Hc' as (q & Hq & Hc').
      rewrite Hp in Hq. inversion Hq; subst q.
      apply IH; assumption.
Qed.

(** X6.  The root returned under [root_request = True] is the topmost
    ancestor of the influential joint found last (or that joint itself when
    it has no parent), and the only parentless node above it: the other
    elements of the hierarchy play no part in it. *)
Theorem root_is_above_last_influential : forall fuel s geometry infl j h root,
  find_influential s (ls_type s "joint") geometry [] = Returned infl ->
  last_opt infl = Some j ->
  get_joint_hierarchy_on fuel s geometry true = Returned (HierarchyAndRoot h root) ->
  parent_of s root = None /\
  (root = j \/ ancestor s root j) /\
  forall r, parent_of s r = None -> r = j \/ ancestor s r j -> r = root.
Proof.
  intros fuel s geometry infl j h root Hinf Hj H.
  unfold get_joint_hierarchy_on in H. rewrite Hinf in H. simpl in H.
  destruct (build_hierarchy fuel s infl []) as [h0| |]; simpl in H; try discriminate.
  unfold leftover_j in H. rewrite Hj in H.
  assert (Hroot : find_root fuel s j = Returned root).
  { destruct h0 as [|e rest]; [simpl in H; discriminate|]. simpl in H.
    destruct (find_root fuel s j) as [r| |] eqn:Er; simpl in H; try discriminate.
    rewrite (root_loop_from_j s fuel j r rest (Some r) Er) in H. simpl in H.
    destruct rest; inversion H; reflexivity. }
  destruct (find_root_sound s fuel j root Hroot) as (Hp & Hc).
  split; [exact Hp|]. split; [exact Hc|].
  intros r Hr Hrc. now apply (top_unique s j r root).
Qed.

Lemma root_is_above_last_influential_witness :
  parent_of sample 1 = None /\
  (1 = 4 \/ ancestor sample 1 4) /\
  forall r, parent_of sample r = None -> r = 4 \/ ancestor sample r 4 -> r = 1.
Proof.
  apply (root_is_above_last_influential 5 sample [11; 10] [5; 4] 4
           [Joint 5; Parents [2]; Parents [1]; Joint 4; Parents [3]] 1);
    reflexivity.
Defined.

(** ** The shells that isolate_geometry would delete *)

Lemma mem_opt_node_In : forall t l, mem_opt_node t l = true <-> In t l.
Proof.
  intros t l. unfold mem_opt_node. rewrite existsb_exists. split.
  - intros (u & Hu & E). destruct t as [x|], u as [y|]; simpl in E;
      try discriminate; [|exact Hu].
    apply Nat.eqb_eq in E. now subst.
  - intros H. exists t. split; [exact H|].
    destruct t as [x|]; simpl; [apply Nat.eqb_refl|reflexivity].
Qed.

Lemma append_new_fold : forall (A : Type) (f : A -> option node) l acc,
  NoDup acc ->
  NoDup (fold_left (fun acc x => append_new acc (f x)) l acc) /\
  forall t,
    In t (fold_left (fun acc x => append_new acc (f x)) l acc) <->
    In t acc \/ exists x, In x l /\ t = f x.
Proof.
  intros A f l. induction l as [|x rest IH]; intros acc Hn; simpl.
  - split; [exact Hn|]. intros t. split; [auto|].
    intros [H|(x & [] & _)]. exact H.
  - assert (Hn1 : NoDup (append_new acc (f x))).
    { unfold append_new. destruct (mem_opt_node (f x) acc) eqn:E; [exact Hn|].
      apply NoDup_snoc; [exact Hn|]. rewrite <- mem_opt_node_In. congruence. }
    destruct (IH _ Hn1) as (Hn2 & Hin). split; [exact Hn2|].
    intros t. rewrite Hin. unfold append_new.
    destruct (mem_opt_node (f x) acc) eqn:E.
    + apply mem_opt_node_In in E. split.
      * intros [H|(y & Hy & ->)]; [auto|]. right. exists y. auto.
      * intros [H|(y & [<-|Hy] & ->)]; [auto|auto|]. right. exists y. auto.
    + rewrite in_app_iff. simpl. split.
      * intros [[H|[<-|[]]]|(y & Hy & ->)]; [auto| |]; right; eauto.
      * intros [H|(y & [<-|Hy] & ->)]; [auto|auto|]. right. exists y. auto.
Qed.

Lemma isolate_geometry_after_mel_run : forall h geometry w,
  isolate_geometry_after_mel h geometry w =
  (Returned tt,
   mkWorld (delete_nodes h
              (shells_for_delete (delete_selection h (w_scene w)) geometry)
              (delete_selection h (w_scene w)))
           (w_events w ++ [Command "delete"; Command "delete"])).
Proof.
  intros h geometry w.
  cbv [isolate_geometry_after_mel bind command emit mutate ask].
  cbn [w_scene w_events]. rewrite <- app_assoc. reflexivity.
Qed.

(** X10.  [isolate_geometry] is its entry, the evaluation of [mel] and then
    lines 98-122.  Those lines, run by themselves, delete the selection and
    then the list [shells_for_delete] computed on the scene so left.  That
    list holds no shell twice, holds only parents of meshes of that scene,
    and never the parent of the shape of an item of the geometry. *)
Theorem shells_for_delete_spares_selection : forall h geometry w,
  let s1 := delete_selection h (w_scene w) in
  isolate_geometry h geometry =
    (emit (Enter "isolate_geometry") ;;;
     mel_eval h "invertSelection;" ;;;
     isolate_geometry_after_mel h geometry) /\
  w_scene (snd (isolate_geometry_after_mel h geometry w)) =
    delete_nodes h (shells_for_delete s1 geometry) s1 /\
  NoDup (shells_for_delete s1 geometry) /\
  (forall t, In t (shells_for_delete s1 geometry) ->
     exists mesh, In mesh (ls_type s1 "mesh") /\ t = parent_of s1 mesh) /\
  (forall item, In item geometry ->
     ~ In (parent_of s1 (shape_node s1 item)) (shells_for_delete s1 geometry)).
Proof.
  intros h geometry w s1. split; [reflexivity|]. split.
  { rewrite isolate_geometry_after_mel_run. reflexivity. }
  destruct (append_new_fold node (parent_of s1) (ls_type s1 "mesh") [])
    as (Hn & Hin); [constructor|].
  destruct (append_new_fold node (fun m => parent_of s1 (shape_node s1 m)) geometry [])
    as (_ & Hsel); [constructor|].
  unfold shells_for_delete. split; [|split].
  - apply NoDup_filter. exact Hn.
  - intros t Ht. apply filter_In in Ht. destruct Ht as (Ht & _).
    apply Hin in Ht. destruct Ht as [[]|Ht]. exact Ht.
  - intros item Hitem Ht. apply filter_In in Ht. destruct Ht as (_ & Ht).
    apply negb_true_iff in Ht.
    assert (E : mem_opt_node (parent_of s1 (shape_node s1 item))
                  (selection_shells s1 geometry) = true).
    { apply mem_opt_node_In. apply Hsel. right. exists item. auto. }
    congruence.
Qed.

(** X9.  On a scene whose parent links form a DAG, [rip_rig] returns
    normally exactly when the selection holds an object that is not a mesh.
    On every selection of meshes, the empty one included, the run ends in an
    exception: the [IndexError] of the skin-cluster lookup when some mesh
    has no skin cluster, the [NameError] of [mel] otherwise. *)
Theorem rip_rig_returns_iff_invalid : forall h fuel s depth selection,
  dag s depth -> covers s depth fuel ->
  (fst (run (rip_rig h fuel selection) s) = Returned tt <->
   ~ Forall (is_mesh s) selection) /\
  (Forall (is_mesh s) selection ->
   (Exists (fun m => own_skin_cluster s m = None) selection /\
    fst (run (rip_rig h fuel selection) s) = Raised IndexError) \/
   (Forall (fun m => own_skin_cluster s m <> None) selection /\
    fst (run (rip_rig h fuel selection) s) = Raised (NameError "mel"))).
Proof.
  intros h fuel s depth selection Hdag Hcov.
  unfold run. rewrite rip_rig_run. simpl w_scene.
  destruct (forallb (is_meshb s) selection) eqn:E.
  - apply forallb_is_mesh in E. split.
    + split.
      * destruct (get_joint_hierarchy_on fuel s selection false); discriminate.
      * intros H. now elim H.
    + intros _.
      destruct (Forall_Exists_dec (fun m => own_skin_cluster s m <> None)) with
        (l := selection) as [Hall|Hex].
      { intros x. destruct (own_skin_cluster s x).
        - left. discriminate.
        - right. intros H. now apply H. }
      * right. split; [exact Hall|].
        destruct (get_joint_hierarchy_total fuel s depth selection Hdag Hcov)
          as (hier & Hh).
        { intros m Hm. rewrite Forall_forall in Hall. now apply Hall. }
        rewrite Hh. reflexivity.
      * left.
        assert (Hsk : Exists (fun m => own_skin_cluster s m = None) selection).
        { apply Exists_exists in Hex. destruct Hex as (m & Hm & Hn).
          apply Exists_exists. exists m. split; [exact Hm|].
          destruct (own_skin_cluster s m); [|reflexivity].
          elim Hn. discriminate. }
        split; [exact Hsk|].
        now rewrite get_joint_hierarchy_skinless.
  - split.
    + split; [|reflexivity]. intros _ H. apply forallb_is_mesh in H. congruence.
    + intros H. apply forallb_is_mesh in H. congruence.
Qed.

Lemma rip_rig_returns_iff_invalid_witness :
  (fst (run (rip_rig sample_host 5 [10; 11]) sample) = Returned tt <->
   ~ Forall (is_mesh sample) [10; 11]) /\
  (Forall (is_mesh sample) [10; 11] ->
   (Exists (fun m => own_skin_cluster sample m = None) [10; 11] /\
    fst (run (rip_rig sample_host 5 [10; 11]) sample) = Raised IndexError) \/
   (Forall (fun m => own_skin_cluster sample m <> None) [10; 11] /\
    fst (run (rip_rig sample_host 5 [10; 11]) sample) = Raised (NameError "mel"))).
Proof.
  apply (rip_rig_returns_iff_invalid sample_host 5 sample sample_depth [10; 11]).
  - exact sample_dag.
  - exact sample_covers.
Defined.

(** ** The walk, step by step *)

(** The entries one walk appends are not in the list it was given. *)
Lemma walk_loop_appends_new : forall s fuel j h h',
  walk_loop fuel s (mkWalk (listRelatives_parent s j) h) = Returned h' ->
  exists t, h' = h ++ t /\ forall e, In e t -> ~ In e h.
Proof.
  intros s. induction fuel as [|fuel IH]; intros j h h' H;
    unfold listRelatives_parent in H;
    destruct (parent_of s j) as [p|] eqn:Ep;
    try (simpl in H; discriminate);
    try (simpl in H; inversion H; subst; exists []; rewrite app_nil_r;
         split; [reflexivity|intros e []]).
  cbn [walk_loop] in H. rewrite walk_step_single in H.
  apply IH in H. destruct H as (t & Ht & Hnew).
  destruct (mem_entry (Parents [p]) h) eqn:Em.
  - exists t. split; [exact Ht|exact Hnew].
  - exists (Parents [p] :: t). split.
    + rewrite Ht, <- app_assoc. reflexivity.
    + intros e [<-|He].
      * now apply mem_entry_false.
      * intros Hin. apply (Hnew e He). apply in_or_app. now left.
Qed.

(** A parent that the list holds only as a joint is appended again, inside
    its list: on the second sample scene the walk above joint 4 meets
    parent 3, which is there as [Joint 3]. *)
Example sample2_parent_appended_again :
  walk_step sample2 (mkWalk [3] [Joint 3; Parents [2]; Parents [1]; Joint 4]) =
  Some (mkWalk [2] [Joint 3; Parents [2]; Parents [1]; Joint 4; Parents [3]]).
Proof. reflexivity. Qed.

(** C6, as the code has it.  The walk above an influential joint stops
    exactly when no parent exists.  At each turn the parent list that
    [listRelatives] returned is appended unless that same list is already an
    element of the hierarchy list, and in both cases the walk goes on with
    the parents of that list.  On a DAG the loop therefore goes through
    every ancestor of the joint, in turn, before the state without parent in
    which it returns; what it has appended are parent lists of ancestors
    that the list did not hold, and the parent list of every ancestor is in
    the result. *)
Theorem walk_stops_at_root_only : forall s depth fuel j h,
  dag s depth ->
  depth j <= fuel ->
  (forall w, walk_step s w = None <-> joint_parent w = []) /\
  (forall w w',
     walk_step s w = Some w' ->
     joint_parent w' = listRelatives_parents s (joint_parent w) /\
     (In (Parents (joint_parent w)) (joint_hierarchy w) ->
      joint_hierarchy w' = joint_hierarchy w) /\
     (~ In (Parents (joint_parent w)) (joint_hierarchy w) ->
      joint_hierarchy w' = joint_hierarchy w ++ [Parents (joint_parent w)])) /\
  exists pre h' t,
    walk_states fuel s (mkWalk (listRelatives_parent s j) h) =
      pre ++ [mkWalk [] h'] /\
    walk_loop fuel s (mkWalk (listRelatives_parent s j) h) = Returned h' /\
    (forall w, In w pre -> exists a, joint_parent w = [a] /\ ancestor s a j) /\
    (forall a, ancestor s a j -> exists w, In w pre /\ joint_parent w = [a]) /\
    h' = h ++ t /\
    (forall e, In e t ->
       ~ In e h /\ exists a, e = Parents [a] /\ ancestor s a j) /\
    (forall a, ancestor s a j -> In (Parents [a]) h').
Proof.
  intros s depth fuel j h Hdag Hd. split; [|split].
  - intros w. apply walk_step_stops.
  - intros w w' Hstep.
    destruct (walk_step_hierarchy s w w' Hstep) as (Hp & Hh).
    split; [exact Hp|]. split.
    + intros Hin. apply mem_entry_Parents in Hin. now rewrite Hin in Hh.
    + intros Hin. apply mem_entry_false in Hin. now rewrite Hin in Hh.
  - destruct (walk_states_chain s depth Hdag fuel j h Hd)
      as (pre & h' & Hws & Hloop & Hpre & Hall).
    destruct (walk_loop_entries s fuel j h h' Hloop) as (t & Ht & Hshape & Hanc & _).
    destruct (walk_loop_appends_new s fuel j h h' Hloop) as (t' & Ht' & Hnew).
    assert (t' = t) by (apply (app_inv_head h); congruence). subst t'.
    exists pre, h', t. repeat split; auto.
Qed.

Lemma walk_stops_at_root_only_witness :
  exists pre h' t,
    walk_states 5 sample2
      (mkWalk (listRelatives_parent sample2 4)
              [Joint 3; Parents [2]; Parents [1]; Joint 4]) =
      pre ++ [mkWalk [] h'] /\
    walk_loop 5 sample2
      (mkWalk (listRelatives_parent sample2 4)
              [Joint 3; Parents [2]; Parents [1]; Joint 4]) =
      Returned h' /\
    (forall w, In w pre -> exists a, joint_parent w = [a] /\ ancestor sample2 a 4) /\
    (forall a, ancestor sample2 a 4 -> exists w, In w pre /\ joint_parent w = [a]) /\
    h' = [Joint 3; Parents [2]; Parents [1]; Joint 4] ++ t /\
    (forall e, In e t ->
       ~ In e [Joint 3; Parents [2]; Parents [1]; Joint 4] /\
       exists a, e = Parents [a] /\ ancestor sample2 a 4) /\
    (forall a, ancestor sample2 a 4 -> In (Parents [a]) h').
Proof.
  assert (Hd : sample_depth 4 <= 5) by (simpl; lia).
  exact (proj2 (proj2 (walk_stops_at_root_only sample2 sample_depth 5 4
                         [Joint 3; Parents [2]; Parents [1]; Joint 4]
                         sample_dag Hd))).
Defined.

(** ** Two runs in a row *)

